(** * onnx2trt plugin layer ([plugin.hpp]): model and verified properties

    The development follows the header class by class: the byte-level
    serialisation helpers it calls ([serialize_value], [deserialize_value]),
    the base class [Plugin], the forwarding [PluginAdapter], the
    self-describing [TypeSerializingPlugin], and an object store in which
    virtual calls are dispatched on the dynamic class of the pointee. *)

From Stdlib Require Import ZArith List Lia.
From Stdlib Require Init.Byte Strings.Byte.
From stdpp Require Import base option list gmap.

Local Open Scope Z_scope.

Abbreviation byte := Init.Byte.byte.
Abbreviation x00 := Init.Byte.x00.

(** ** Machine integers *)

(** [size_t] is a 64-bit unsigned integer, [int] a 32-bit signed one.  A
    value of either type is a [Z]; the conversions write the wrap-around out. *)
Definition size_t_modulus : Z := 2 ^ 64.
Definition to_size_t (z : Z) : Z := z mod size_t_modulus.
Definition is_size_t (z : Z) : Prop := 0 <= z < size_t_modulus.
Definition is_int (z : Z) : Prop := - 2 ^ 31 <= z < 2 ^ 31.
Definition to_int (z : Z) : Z := (z + 2 ^ 31) mod 2 ^ 32 - 2 ^ 31.

(** ** Bytes and little-endian images *)

#[global] Instance byte_eq_dec : EqDecision byte := Strings.Byte.byte_eq_dec.

Definition byte_to_Z (b : byte) : Z := Z.of_N (Strings.Byte.to_N b).
Definition byte_of_Z (z : Z) : byte :=
  default x00 (Strings.Byte.of_N (Z.to_N (z mod 256))).

(** The object representation of an unsigned integer of [k] bytes, least
    significant byte first, as [memcpy] copies it on the target. *)
Fixpoint le_bytes (k : nat) (z : Z) : list byte :=
  match k with
  | O => []
  | S k' => byte_of_Z z :: le_bytes k' (z / 256)
  end.

Fixpoint le_value (bs : list byte) : Z :=
  match bs with
  | [] => 0
  | b :: bs' => byte_to_Z b + 256 * le_value bs'
  end.

(** ** Buffers *)

(** The destination of a serialisation: the caller's byte array and the
    cursor ([void* buffer]) into it.  Nothing in the header knows the extent
    of the array; writing past its end is undefined behaviour, [None] here. *)
Record wbuf := { mem : list byte; pos : nat }.

(** [memcpy(buffer, src, n); buffer += n]. *)
Definition poke (bs : list byte) (w : wbuf) : option wbuf :=
  if decide (pos w + length bs <= length (mem w))%nat then
    Some {| mem := take (pos w) (mem w) ++ bs ++ drop (pos w + length bs) (mem w);
            pos := (pos w + length bs)%nat |}
  else None.

(** A writer [f] writes exactly the bytes [bs]: on every buffer it behaves as
    the copy of [bs] at the cursor (and overruns exactly when that copy does). *)
Definition writes (f : wbuf -> option wbuf) (bs : list byte) : Prop :=
  forall w, f w = poke bs w.

(** The source of a deserialisation, [(void const* buffer, size_t
    buffer_size)]: the bytes from the cursor to the end of the data. *)
Definition rbuf := list byte.

(** ** C strings *)

(** A [const char*] is modelled by the bytes of the array it points to; the
    terminator that ends the array is implicit.  The string value stops at the
    first NUL. *)
Definition cstring := list byte.

Definition is_nul (b : byte) : bool := Strings.Byte.eqb b x00.

Fixpoint c_str (s : cstring) : list byte :=
  match s with
  | [] => []
  | b :: s' => if is_nul b then [] else b :: c_str s'
  end.

(** No NUL among the characters: the string value is the whole array. *)
Definition no_nul (s : cstring) : Prop := Forall (fun b => b <> x00) s.

Definition strlen (s : cstring) : Z := Z.of_nat (length (c_str s)).

(** [sizeof] of a string literal: all its characters and the terminator. *)
Definition sizeof_literal (s : cstring) : Z := Z.of_nat (length s) + 1.

(** ** [nvinfer1] value types *)

(** [nvinfer1::Dims]: [int nbDims; int d[MAX_DIMS]] with [MAX_DIMS = 8]. *)
Definition MAX_DIMS : nat := 8.
Record Dims := { nbDims : Z; d : list Z }.

Definition Dims_ok (x : Dims) : Prop :=
  is_int (nbDims x) /\ length (d x) = MAX_DIMS /\ Forall is_int (d x).

(** [nvinfer1::DataType] and [nvinfer1::PluginFormat] are scoped enumerations
    over [int]; an object of such a type holds any value of the underlying
    type, and the serialisation copies it without looking at it. *)
Definition DataType := Z.
Definition PluginFormat := Z.
Definition kFLOAT : DataType := 0.
Definition kINT8 : DataType := 2.
Definition kLINEAR : PluginFormat := 0.

(** ** [serialize.hpp] *)

(** Object representation of a trivially copyable type. *)
Record Pod (T : Type) := {
  sizeof : nat;
  repr : T -> list byte;
  unrepr : list byte -> T
}.
Arguments sizeof {T}.
Arguments repr {T}.
Arguments unrepr {T}.

Definition Pod_size_t : Pod Z :=
  {| sizeof := 8; repr := fun z => le_bytes 8 (to_size_t z); unrepr := le_value |}.

Definition Pod_int : Pod Z :=
  {| sizeof := 4;
     repr := fun z => le_bytes 4 (z mod 2 ^ 32);
     unrepr := fun bs => to_int (le_value bs) |}.

(** The representation of the values satisfying [valid] has the size of the
    type and determines the value. *)
Definition Pod_ok {T} (P : Pod T) (valid : T -> Prop) : Prop :=
  forall v, valid v -> length (repr P v) = sizeof P /\ unrepr P (repr P v) = v.

(** An array of [n] objects laid out one after the other. *)
Fixpoint unrepr_array {T} (P : Pod T) (n : nat) (bs : list byte) : list T :=
  match n with
  | O => []
  | S n' => unrepr P (take (sizeof P) bs) :: unrepr_array P n' (drop (sizeof P) bs)
  end.

Definition repr_array {T} (P : Pod T) (xs : list T) : list byte :=
  concat (map (repr P) xs).

Definition Pod_Dims : Pod Dims :=
  {| sizeof := 4 + 4 * MAX_DIMS;
     repr := fun x =>
       repr Pod_int (nbDims x)
       ++ repr_array Pod_int (map (fun i => nth i (d x) 0) (seq 0 MAX_DIMS));
     unrepr := fun bs =>
       {| nbDims := unrepr Pod_int (take 4 bs);
          d := unrepr_array Pod_int MAX_DIMS (drop 4 bs) |} |}.

Module Serializer.

(** Modelled from the spec: [Serializer<T>] of [serialize.hpp], a header that
    is not among the sources.  The spec fixes the wire format as fields "in a
    fixed order" whose "byte order and field widths must match the host
    runtime's native types exactly", and the type name as "NUL-terminated".
    A serialiser gives the size of the image of a value, writes the image at
    the cursor and advances it, and reads a value back, failing (its
    [assert]) when the data is too short. *)
Record t (T : Type) := {
  serialized_size : T -> Z;
  serialize : wbuf -> T -> option wbuf;
  deserialize : rbuf -> option (T * rbuf)
}.
Arguments serialized_size {T}.
Arguments serialize {T}.
Arguments deserialize {T}.

(** Modelled from the spec: the serialiser of trivially copyable values
    ([serialize.hpp]), a [memcpy] of the object representation in either
    direction. *)
Definition pod {T} (P : Pod T) : t T :=
  {| serialized_size := fun _ => Z.of_nat (sizeof P);
     serialize := fun buffer value => poke (repr P value) buffer;
     deserialize := fun data =>
       if decide (sizeof P <= length data)%nat
       then Some (unrepr P (take (sizeof P) data), drop (sizeof P) data)
       else None |}.

(** Modelled from the spec: reading a "NUL-terminated" string
    ([serialize.hpp]): the characters before the first NUL, the cursor left
    after the NUL; no NUL in the data fails the size [assert]. *)
Fixpoint read_cstr (data : rbuf) : option (cstring * rbuf) :=
  match data with
  | [] => None
  | b :: rest =>
      if is_nul b then Some ([], rest)
      else '(s, rest') ← read_cstr rest; Some (b :: s, rest')
  end.

(** Modelled from the spec: the serialiser of [const char*]
    ([serialize.hpp]), a [strcpy], the terminator included ("NUL-terminated
    type-name string"). *)
Definition cstr : t cstring :=
  {| serialized_size := fun s => to_size_t (strlen s + 1);
     serialize := fun buffer value => poke (c_str value ++ [x00]) buffer;
     deserialize := read_cstr |}.

(** Modelled from the spec: the serialiser of [std::vector<T>] for trivially
    copyable [T] ([serialize.hpp]), the "input dims array": the element count
    as a [size_t], then the elements. *)
Definition vector {T} (P : Pod T) : t (list T) :=
  {| serialized_size := fun v =>
       to_size_t (Z.of_nat (sizeof Pod_size_t)
                  + Z.of_nat (length v) * Z.of_nat (sizeof P));
     serialize := fun buffer value =>
       buffer ← serialize (pod Pod_size_t) buffer (Z.of_nat (length value));
       poke (repr_array P value) buffer;
     deserialize := fun data =>
       '(size, data) ← deserialize (pod Pod_size_t) data;
       let nbyte := (Z.to_nat size * sizeof P)%nat in
       if decide (nbyte <= length data)%nat
       then Some (unrepr_array P (Z.to_nat size) (take nbyte data), drop nbyte data)
       else None |}.

End Serializer.

(** Modelled from the spec: the two entry points of [serialize.hpp]; the C++
    overload picks the serialiser from the type of the value, here it is
    named. *)
Definition serialize_value {T} (S : Serializer.t T) (buffer : wbuf) (value : T)
  : option wbuf := Serializer.serialize S buffer value.

(** Modelled from the spec: see [serialize_value]. *)
Definition deserialize_value {T} (S : Serializer.t T) (data : rbuf)
  : option (T * rbuf) := Serializer.deserialize S data.

(** ** Outcomes of a call that may throw *)

Inductive exn := out_of_range.

Inductive result (A : Type) :=
  | Returns (a : A)
  | Throws (e : exn).
Arguments Returns {A}.
Arguments Throws {A}.

(** [std::vector<T>::at(size_type n)]: the element at [n], or
    [std::out_of_range] when [n >= size()]. *)
Definition vector_at {A} (v : list A) (n : Z) : result A :=
  if decide (n < Z.of_nat (length v)) then
    match v !! Z.to_nat n with
    | Some x => Returns x
    | None => Throws out_of_range
    end
  else Throws out_of_range.

(** [std::vector<nvinfer1::Dims>::max_size()]: [PTRDIFF_MAX / sizeof(Dims)]. *)
Definition vector_max_size : Z := (2 ^ 63 - 1) / Z.of_nat (sizeof Pod_Dims).

(** ** class [Plugin] *)

Module Plugin.

Record t := {
  _input_dims : list Dims;
  _max_batch_size : Z;          (* size_t *)
  _data_type : DataType;
  _data_format : PluginFormat
}.

(** The [int] index converts to the [size_type] parameter of [at]. *)
Definition getInputDims (self : t) (index : Z) : result Dims :=
  vector_at (_input_dims self) (to_size_t index).
Definition getMaxBatchSize (self : t) : Z := _max_batch_size self.
Definition getDataType (self : t) : DataType := _data_type self.
Definition getDataFormat (self : t) : PluginFormat := _data_format self.

Definition getWorkspaceSize (self : t) (maxBatchSize : Z) : Z := 0.

Definition initialize (self : t) : Z * t := (0, self).
Definition terminate (self : t) : t := self.

(** Modelled from the spec: the body of [Plugin::configureWithFormat] is in
    [plugin.cpp], which is not among the sources.  "Side effect: caches
    [inputDims], [type], [format], [maxBatchSize] into instance state."
    [inputDims] points to an array of which the first [nbInputs] entries are
    copied; a count that is negative or exceeds the array is undefined.  The
    [int] batch size converts to the [size_t] field. *)
Definition configureWithFormat (self : t)
    (inputDims : list Dims) (nbInputs : Z)
    (outputDims : list Dims) (nbOutputs : Z)
    (type : DataType) (format : PluginFormat) (maxBatchSize : Z) : option t :=
  if decide (0 <= nbInputs <= Z.of_nat (length inputDims)) then
    Some {| _input_dims := take (Z.to_nat nbInputs) inputDims;
            _max_batch_size := to_size_t maxBatchSize;
            _data_type := type;
            _data_format := format |}
  else None.

(** Modelled from the spec: the three base serialisation helpers are in
    [plugin.cpp], which is not among the sources.  They "write/read the four
    cached fields in a fixed order": "[input dims array][max batch size][data
    type tag][data format tag]". *)
Definition serializeBase (self : t) (buffer : wbuf) : option wbuf :=
  buffer ← serialize_value (Serializer.vector Pod_Dims) buffer (_input_dims self);
  buffer ← serialize_value (Serializer.pod Pod_size_t) buffer (_max_batch_size self);
  buffer ← serialize_value (Serializer.pod Pod_int) buffer (_data_type self);
  serialize_value (Serializer.pod Pod_int) buffer (_data_format self).

(** Modelled from the spec: see [serializeBase]; the fields are read in the
    order they were written, into the instance. *)
Definition deserializeBase (self : t) (serialData : rbuf) : option (t * rbuf) :=
  '(input_dims, serialData) ← deserialize_value (Serializer.vector Pod_Dims) serialData;
  '(max_batch_size, serialData) ← deserialize_value (Serializer.pod Pod_size_t) serialData;
  '(data_type, serialData) ← deserialize_value (Serializer.pod Pod_int) serialData;
  '(data_format, serialData) ← deserialize_value (Serializer.pod Pod_int) serialData;
  Some ({| _input_dims := input_dims;
           _max_batch_size := max_batch_size;
           _data_type := data_type;
           _data_format := data_format |}, serialData).

(** Modelled from the spec: see [serializeBase]; the sum of the sizes of the
    four fields, in [size_t] arithmetic. *)
Definition getBaseSerializationSize (self : t) : Z :=
  to_size_t (Serializer.serialized_size (Serializer.vector Pod_Dims) (_input_dims self)
             + Serializer.serialized_size (Serializer.pod Pod_size_t) (_max_batch_size self)
             + Serializer.serialized_size (Serializer.pod Pod_int) (_data_type self)
             + Serializer.serialized_size (Serializer.pod Pod_int) (_data_format self)).

(** The bytes [serializeBase] emits. *)
Definition base_image (self : t) : list byte :=
  repr Pod_size_t (Z.of_nat (length (_input_dims self)))
  ++ repr_array Pod_Dims (_input_dims self)
  ++ repr Pod_size_t (_max_batch_size self)
  ++ repr Pod_int (_data_type self)
  ++ repr Pod_int (_data_format self).

(** The cached fields hold values of their C++ types. *)
Definition ok (self : t) : Prop :=
  Forall Dims_ok (_input_dims self)
  /\ Z.of_nat (length (_input_dims self)) <= vector_max_size
  /\ is_size_t (_max_batch_size self)
  /\ is_int (_data_type self)
  /\ is_int (_data_format self).

(** *** The members of the class and the life of an instance *)

Inductive access := Public | Protected.

Inductive member :=
  | getPluginType_
  | getInputDims_ (index : Z)
  | getMaxBatchSize_
  | getDataType_
  | getDataFormat_
  | getWorkspaceSize_ (maxBatchSize : Z)
  | initialize_
  | terminate_
  | supportsFormat_ (type : DataType) (format : PluginFormat)
  | configureWithFormat_ (inputDims : list Dims) (nbInputs : Z)
      (outputDims : list Dims) (nbOutputs : Z)
      (type : DataType) (format : PluginFormat) (maxBatchSize : Z)
  | destroy_
  | deserializeBase_ (serialData : rbuf)
  | getBaseSerializationSize_
  | serializeBase_ (buffer : wbuf)
  | dtor_.

(** The access specifier under which the class declares each member. *)
Definition access_of (m : member) : access :=
  match m with
  | deserializeBase_ _ | getBaseSerializationSize_ | serializeBase_ _ | dtor_ =>
      Protected
  | _ => Public
  end.



(** An instance is alive with some state, or its destructor has run
    ([Destructed]), or it has been deleted ([delete this]: destructor and
    deallocation). *)
Inductive instance := Alive (self : t) | Destructed | Deleted.

(** One call of a member on an instance.  [const] members leave the state as
    it is whatever they return (also [getInputDims] when it throws); a call
    on an instance whose lifetime has ended is undefined, [None]. *)
Definition step (m : member) (i : instance) : option instance :=
  match i with
  | Alive self =>
      match m with
      | configureWithFormat_ inputDims nbInputs outputDims nbOutputs type format maxBatchSize =>
          Alive <$> configureWithFormat self inputDims nbInputs outputDims nbOutputs
                      type format maxBatchSize
      | deserializeBase_ serialData =>
          (fun r => Alive (fst r)) <$> deserializeBase self serialData
      | initialize_ => Some (Alive (snd (initialize self)))
      | terminate_ => Some (Alive (terminate self))
      | destroy_ => Some Deleted
      | dtor_ => Some Destructed
      | getPluginType_ | getInputDims_ _ | getMaxBatchSize_ | getDataType_
      | getDataFormat_ | getWorkspaceSize_ _ | supportsFormat_ _ _
      | getBaseSerializationSize_ | serializeBase_ _ => Some (Alive self)
      end
  | Destructed | Deleted => None
  end.


End Plugin.

(** ** The classes of the header and what a caller outside them may do *)

(** The four classes the header defines: [Plugin], and derived from it
    [PluginAdapter], from which [TypeSerializingPlugin] and [NvPlugin]
    derive.  All derivations are [public], so a member of [Plugin] keeps its
    access in the derived classes. *)
Inductive class :=
  | Plugin_class
  | PluginAdapter_class
  | TypeSerializingPlugin_class
  | NvPlugin_class.

(** The access of the destructor of each class.  [Plugin] declares
    [virtual ~Plugin() {}] under [protected:].  The three derived classes
    declare no destructor; the destructor the language then declares for
    them is a public member. *)
Definition dtor_access (c : class) : Plugin.access :=
  match c with
  | Plugin_class => Plugin.Protected
  | PluginAdapter_class | TypeSerializingPlugin_class | NvPlugin_class =>
      Plugin.Public
  end.

(** What a caller holding a pointer [p] can write to act on the object:
    a member call [p->m(...)], or the expression [delete p]. *)
Inductive action :=
  | Invoke (m : Plugin.member)
  | DeleteExpr.

(** Whether access control lets code outside the classes write the action on
    a pointer whose static type is the class [c].  The destructor, called
    explicitly or through [delete], is checked against the destructor of
    [c]; every other member against its declaration in [Plugin]. *)
Definition permitted (c : class) (a : action) : bool :=
  match a with
  | Invoke Plugin.dtor_ | DeleteExpr =>
      match dtor_access c with Plugin.Public => true | Plugin.Protected => false end
  | Invoke m =>
      match Plugin.access_of m with Plugin.Public => true | Plugin.Protected => false end
  end.

(** The effect of an action on the instance.  [delete p] runs the (virtual)
    destructor and deallocates, which is what [destroy()] does on [this]. *)
Definition act (a : action) (i : Plugin.instance) : option Plugin.instance :=
  match a with
  | Invoke m => Plugin.step m i
  | DeleteExpr =>
      match i with
      | Plugin.Alive _ => Some Plugin.Deleted
      | Plugin.Destructed | Plugin.Deleted => None
      end
  end.

(** ** Objects and pointers *)

(** A pointer to a plugin object is the identity of that object; identities
    are handed out in order of construction and never reused. *)
Abbreviation addr := positive.

(** Modelled from the spec: [UniqueOwnable] is declared in
    [plugin_common.hpp], which is not among the sources.  The wrapper
    "exclusively owns the wrapped plugin (destroys it on its own
    destruction)", "e.g. via owning smart-pointer semantics": an owning
    handle, empty or holding one pointer, whose destruction calls [destroy()]
    on the pointee. *)
Definition UniqueOwnable := option addr.

(** The non-[const] calls a test double has received, with their arguments. *)
Inductive Call :=
  | CallGetOutputDimensions (index : Z) (inputDims : list Dims) (nbInputs : Z)
  | CallInitialize
  | CallTerminate
  | CallConfigureWithFormat (inputDims : list Dims) (nbInputs : Z)
      (outputDims : list Dims) (nbOutputs : Z)
      (type : DataType) (format : PluginFormat) (maxBatchSize : Z)
  | CallEnqueue (batchSize : Z) (inputs outputs : list Z) (workspace stream : Z).

(** A plugin whose class is defined outside the header (an operator derived
    from [Plugin], or a plugin of the runtime's own collection).  The header
    sees it only through its virtual functions, so it is described by what
    each of them answers: a table of results, which may depend on the
    arguments, the bytes its [serialize] writes, and the record of the
    state-changing calls made on it. *)
Record Stub := {
  stub_extended : bool;                    (* also an IPluginV2Ext *)
  stub_type : cstring;
  stub_nbOutputs : Z;
  stub_outputDimensions : Z -> list Dims -> Z -> Dims;
  stub_image : list byte;
  stub_serializationSize : Z;
  stub_initialize : Z;
  stub_supportsFormat : DataType -> PluginFormat -> bool;
  stub_workspaceSize : Z -> Z;
  stub_enqueue : Z -> list Z -> list Z -> Z -> Z -> Z;
  stub_calls : list Call
}.

Definition record_call (c : Call) (s : Stub) : Stub :=
  {| stub_extended := stub_extended s;
     stub_type := stub_type s;
     stub_nbOutputs := stub_nbOutputs s;
     stub_outputDimensions := stub_outputDimensions s;
     stub_image := stub_image s;
     stub_serializationSize := stub_serializationSize s;
     stub_initialize := stub_initialize s;
     stub_supportsFormat := stub_supportsFormat s;
     stub_workspaceSize := stub_workspaceSize s;
     stub_enqueue := stub_enqueue s;
     stub_calls := stub_calls s ++ [c] |}.

(** ** class [PluginAdapter] *)

Module PluginAdapter.

Record t := {
  base : Plugin.t;
  _plugin : addr;               (* nvinfer1::IPluginV2* *)
  _ext : option addr            (* dynamic_cast<IPluginV2Ext*>(plugin) *)
}.

(** The constructor; [extended] is the outcome of the [dynamic_cast] on the
    pointee.  The base sub-object is not initialised by it. *)
Definition make (base : Plugin.t) (plugin : addr) (extended : bool) : t :=
  {| base := base; _plugin := plugin;
     _ext := if extended then Some plugin else None |}.

(** The bodies of the ten overriders are in [plugin.cpp], which is not among
    the sources; the spec has them all alike: "Every operation [...] is
    forwarded verbatim to the wrapped object.  No transformation of arguments
    or results."  Each takes the virtual call on a pointer as [call]. *)
Section Forwarding.
Context {heap : Type}.

(** Modelled from the spec: [PluginAdapter::getNbOutputs] ([plugin.cpp]),
    "forwarded verbatim to the wrapped object". *)
Definition getNbOutputs (call : addr -> option Z) (self : t) : option Z :=
  call (_plugin self).

(** Modelled from the spec: [PluginAdapter::getOutputDimensions] ([plugin.cpp]),
    "forwarded verbatim to the wrapped object". *)
Definition getOutputDimensions
    (call : addr -> Z -> list Dims -> Z -> heap -> option (Dims * heap))
    (self : t) (index : Z) (inputDims : list Dims) (nbInputs : Z) (h : heap)
  : option (Dims * heap) :=
  call (_plugin self) index inputDims nbInputs h.

(** Modelled from the spec: [PluginAdapter::serialize] ([plugin.cpp]),
    "forwarded verbatim to the wrapped object". *)
Definition serialize (call : addr -> wbuf -> option wbuf)
    (self : t) (buffer : wbuf) : option wbuf :=
  call (_plugin self) buffer.

(** Modelled from the spec: [PluginAdapter::getSerializationSize] ([plugin.cpp]),
    "forwarded verbatim to the wrapped object". *)
Definition getSerializationSize (call : addr -> option Z) (self : t) : option Z :=
  call (_plugin self).

(** Modelled from the spec: [PluginAdapter::initialize] ([plugin.cpp]),
    "forwarded verbatim to the wrapped object". *)
Definition initialize (call : addr -> heap -> option (Z * heap))
    (self : t) (h : heap) : option (Z * heap) :=
  call (_plugin self) h.

(** Modelled from the spec: [PluginAdapter::terminate] ([plugin.cpp]),
    "forwarded verbatim to the wrapped object". *)
Definition terminate (call : addr -> heap -> option heap)
    (self : t) (h : heap) : option heap :=
  call (_plugin self) h.

(** Modelled from the spec: [PluginAdapter::supportsFormat] ([plugin.cpp]),
    "forwarded verbatim to the wrapped object". *)
Definition supportsFormat (call : addr -> DataType -> PluginFormat -> option bool)
    (self : t) (type : DataType) (format : PluginFormat) : option bool :=
  call (_plugin self) type format.

(** Modelled from the spec: [PluginAdapter::configureWithFormat] ([plugin.cpp]),
    "forwarded verbatim to the wrapped object". *)
Definition configureWithFormat
    (call : addr -> list Dims -> Z -> list Dims -> Z -> DataType -> PluginFormat -> Z
            -> heap -> option heap)
    (self : t) (inputDims : list Dims) (nbInputs : Z)
    (outputDims : list Dims) (nbOutputs : Z)
    (type : DataType) (format : PluginFormat) (maxBatchSize : Z) (h : heap)
  : option heap :=
  call (_plugin self) inputDims nbInputs outputDims nbOutputs type format maxBatchSize h.

(** Modelled from the spec: [PluginAdapter::getWorkspaceSize] ([plugin.cpp]),
    "forwarded verbatim to the wrapped object". *)
Definition getWorkspaceSize (call : addr -> Z -> option Z)
    (self : t) (maxBatchSize : Z) : option Z :=
  call (_plugin self) maxBatchSize.

(** Modelled from the spec: [PluginAdapter::enqueue] ([plugin.cpp]),
    "forwarded verbatim to the wrapped object". *)
Definition enqueue
    (call : addr -> Z -> list Z -> list Z -> Z -> Z -> heap -> option (Z * heap))
    (self : t) (batchSize : Z) (inputs outputs : list Z) (workspace stream : Z)
    (h : heap) : option (Z * heap) :=
  call (_plugin self) batchSize inputs outputs workspace stream h.
End Forwarding.

End PluginAdapter.

(** ** class [TypeSerializingPlugin] *)

Module TypeSerializingPlugin.

Record t := {
  adapter : PluginAdapter.t;    (* the PluginAdapter base sub-object *)
  _owned_plugin : UniqueOwnable;
  _plugin : addr                (* Plugin* *)
}.

(** [TypeSerializingPlugin(Plugin* plugin)
      : PluginAdapter(plugin), _owned_plugin(plugin), _plugin(plugin)].
    Every [Plugin] is an [IPluginV2Ext], so the adapter's cast succeeds. *)
Definition make (base : Plugin.t) (plugin : addr) : t :=
  {| adapter := PluginAdapter.make base plugin true;
     _owned_plugin := Some plugin;
     _plugin := plugin |}.

Section Methods.
(** The magic marker [REGISTERABLE_PLUGIN_MAGIC_STRING] is a macro defined
    in another header; it is used as a string literal (its [sizeof] is
    taken and it is cast to [const char*]), and is a parameter here: the
    characters of the literal. *)
Variable REGISTERABLE_PLUGIN_MAGIC_STRING : cstring.

Variable call_getPluginType : addr -> option cstring.
Variable call_serialize : addr -> wbuf -> option wbuf.
Variable call_getSerializationSize : addr -> option Z.

Definition serialize (self : t) (buffer : wbuf) : option wbuf :=
  plugin_type ← call_getPluginType (_plugin self);
  buffer ← serialize_value Serializer.cstr buffer REGISTERABLE_PLUGIN_MAGIC_STRING;
  buffer ← serialize_value Serializer.cstr buffer plugin_type;
  call_serialize (_plugin self) buffer.

Definition getSerializationSize (self : t) : option Z :=
  plugin_type ← call_getPluginType (_plugin self);
  wrapped ← call_getSerializationSize (_plugin self);
  Some (to_size_t (sizeof_literal REGISTERABLE_PLUGIN_MAGIC_STRING + 1
                   + strlen plugin_type
                   + wrapped)).

Definition getPluginType (self : t) : option cstring :=
  call_getPluginType (_plugin self).
End Methods.

End TypeSerializingPlugin.

(** ** The object store and virtual dispatch *)

Inductive obj :=
  | Foreign (s : Stub)
  | TypeSerializing (w : TypeSerializingPlugin.t).

Abbreviation heap := (gmap addr obj).

(** A virtual call [p->f(...)] looks the object up and runs the final
    overrider of its class.  A call through a dangling pointer is undefined,
    [None].  The first argument bounds the depth of nested wrappers. *)

Fixpoint getPluginType (n : nat) (h : heap) (p : addr) : option cstring :=
  match n with
  | O => None
  | S n' =>
      match h !! p with
      | None => None
      | Some (Foreign s) => Some (stub_type s)
      | Some (TypeSerializing w) =>
          TypeSerializingPlugin.getPluginType (getPluginType n' h) w
      end
  end.

Fixpoint getNbOutputs (n : nat) (h : heap) (p : addr) : option Z :=
  match n with
  | O => None
  | S n' =>
      match h !! p with
      | None => None
      | Some (Foreign s) => Some (stub_nbOutputs s)
      | Some (TypeSerializing w) =>
          PluginAdapter.getNbOutputs (getNbOutputs n' h) (TypeSerializingPlugin.adapter w)
      end
  end.

Fixpoint getOutputDimensions (n : nat) (p : addr)
    (index : Z) (inputDims : list Dims) (nbInputs : Z) (h : heap)
  : option (Dims * heap) :=
  match n with
  | O => None
  | S n' =>
      match h !! p with
      | None => None
      | Some (Foreign s) =>
          Some (stub_outputDimensions s index inputDims nbInputs,
                <[p := Foreign (record_call (CallGetOutputDimensions index inputDims nbInputs) s)]> h)
      | Some (TypeSerializing w) =>
          PluginAdapter.getOutputDimensions (getOutputDimensions n')
            (TypeSerializingPlugin.adapter w) index inputDims nbInputs h
      end
  end.

Fixpoint getSerializationSize (magic : cstring) (n : nat) (h : heap) (p : addr)
  : option Z :=
  match n with
  | O => None
  | S n' =>
      match h !! p with
      | None => None
      | Some (Foreign s) => Some (stub_serializationSize s)
      | Some (TypeSerializing w) =>
          TypeSerializingPlugin.getSerializationSize magic
            (getPluginType n' h) (getSerializationSize magic n' h) w
      end
  end.

Fixpoint serialize (magic : cstring) (n : nat) (h : heap) (p : addr) (buffer : wbuf)
  : option wbuf :=
  match n with
  | O => None
  | S n' =>
      match h !! p with
      | None => None
      | Some (Foreign s) => poke (stub_image s) buffer
      | Some (TypeSerializing w) =>
          TypeSerializingPlugin.serialize magic
            (getPluginType n' h) (serialize magic n' h) w buffer
      end
  end.

Fixpoint initialize (n : nat) (p : addr) (h : heap) : option (Z * heap) :=
  match n with
  | O => None
  | S n' =>
      match h !! p with
      | None => None
      | Some (Foreign s) =>
          Some (stub_initialize s, <[p := Foreign (record_call CallInitialize s)]> h)
      | Some (TypeSerializing w) =>
          PluginAdapter.initialize (initialize n') (TypeSerializingPlugin.adapter w) h
      end
  end.

Fixpoint terminate (n : nat) (p : addr) (h : heap) : option heap :=
  match n with
  | O => None
  | S n' =>
      match h !! p with
      | None => None
      | Some (Foreign s) => Some (<[p := Foreign (record_call CallTerminate s)]> h)
      | Some (TypeSerializing w) =>
          PluginAdapter.terminate (terminate n') (TypeSerializingPlugin.adapter w) h
      end
  end.

Fixpoint supportsFormat (n : nat) (h : heap) (p : addr)
    (type : DataType) (format : PluginFormat) : option bool :=
  match n with
  | O => None
  | S n' =>
      match h !! p with
      | None => None
      | Some (Foreign s) => Some (stub_supportsFormat s type format)
      | Some (TypeSerializing w) =>
          PluginAdapter.supportsFormat (supportsFormat n' h)
            (TypeSerializingPlugin.adapter w) type format
      end
  end.

Fixpoint configureWithFormat (n : nat) (p : addr)
    (inputDims : list Dims) (nbInputs : Z) (outputDims : list Dims) (nbOutputs : Z)
    (type : DataType) (format : PluginFormat) (maxBatchSize : Z) (h : heap)
  : option heap :=
  match n with
  | O => None
  | S n' =>
      match h !! p with
      | None => None
      | Some (Foreign s) =>
          Some (<[p := Foreign (record_call
                   (CallConfigureWithFormat inputDims nbInputs outputDims nbOutputs
                      type format maxBatchSize) s)]> h)
      | Some (TypeSerializing w) =>
          PluginAdapter.configureWithFormat (configureWithFormat n')
            (TypeSerializingPlugin.adapter w)
            inputDims nbInputs outputDims nbOutputs type format maxBatchSize h
      end
  end.

Fixpoint getWorkspaceSize (n : nat) (h : heap) (p : addr) (maxBatchSize : Z)
  : option Z :=
  match n with
  | O => None
  | S n' =>
      match h !! p with
      | None => None
      | Some (Foreign s) => Some (stub_workspaceSize s maxBatchSize)
      | Some (TypeSerializing w) =>
          PluginAdapter.getWorkspaceSize (getWorkspaceSize n' h)
            (TypeSerializingPlugin.adapter w) maxBatchSize
      end
  end.

Fixpoint enqueue (n : nat) (p : addr)
    (batchSize : Z) (inputs outputs : list Z) (workspace stream : Z) (h : heap)
  : option (Z * heap) :=
  match n with
  | O => None
  | S n' =>
      match h !! p with
      | None => None
      | Some (Foreign s) =>
          Some (stub_enqueue s batchSize inputs outputs workspace stream,
                <[p := Foreign (record_call
                   (CallEnqueue batchSize inputs outputs workspace stream) s)]> h)
      | Some (TypeSerializing w) =>
          PluginAdapter.enqueue (enqueue n') (TypeSerializingPlugin.adapter w)
            batchSize inputs outputs workspace stream h
      end
  end.

(** *** Destruction *)

(** The store with the record of the objects destroyed so far, oldest first
    (the destruction counter of the test doubles). *)
Record store := { objs : heap; destroyed : list addr }.

(** [delete p], after the destructor of [*p] has done its work: the object is
    gone and its destruction is counted. *)
Definition deallocate (p : addr) (s : store) : store :=
  {| objs := delete p (objs s); destroyed := destroyed s ++ [p] |}.

(** Modelled from the spec: destruction of a [UniqueOwnable]
    ([plugin_common.hpp]), nothing when empty, else [destroy()] on the pointee
    ("destroys it on its own destruction"). *)
Definition UniqueOwnable_dtor (call_destroy : addr -> store -> option store)
    (u : UniqueOwnable) (s : store) : option store :=
  match u with
  | None => Some s
  | Some p => call_destroy p s
  end.

(** The implicit destructor of [TypeSerializingPlugin]: the members go in the
    reverse order of their declaration, [_plugin] (a raw pointer: nothing to
    do) and then [_owned_plugin]; the bases [PluginAdapter] and [Plugin] hold
    raw pointers and values only. *)
Definition TypeSerializingPlugin_dtor (call_destroy : addr -> store -> option store)
    (self : TypeSerializingPlugin.t) (s : store) : option store :=
  UniqueOwnable_dtor call_destroy (TypeSerializingPlugin._owned_plugin self) s.

(** [destroy()]: for a foreign plugin [Plugin::destroy], for the wrapper
    [TypeSerializingPlugin::destroy]; both are [delete this]. *)
Fixpoint destroy (n : nat) (this : addr) (s : store) : option store :=
  match n with
  | O => None
  | S n' =>
      match objs s !! this with
      | None => None
      | Some (Foreign _) => Some (deallocate this s)
      | Some (TypeSerializing w) =>
          s' ← TypeSerializingPlugin_dtor (destroy n') w s;
          Some (deallocate this s')
      end
  end.

(** The store is as the constructors leave it: the three pointers of a
    wrapper name the plugin it was constructed from, which exists and is
    older than the wrapper. *)
Definition heap_ok (h : heap) : Prop :=
  forall a w, h !! a = Some (TypeSerializing w) ->
    exists base p, w = TypeSerializingPlugin.make base p
                   /\ (p < a)%positive /\ is_Some (h !! p).

(** A wrapper is younger than the plugin it wraps, so in such a store the
    identity of the receiver bounds the depth of the calls under it. *)
Definition depth (p : addr) : nat := Pos.to_nat p.

(** [p->getPluginType()], [p->getSerializationSize()], [p->serialize(buffer)]
    and [p->destroy()] in a store as the constructors leave it. *)
Definition call_getPluginType (h : heap) (p : addr) : option cstring :=
  getPluginType (depth p) h p.

Definition call_getSerializationSize (magic : cstring) (h : heap) (p : addr)
  : option Z := getSerializationSize magic (depth p) h p.

Definition call_serialize (magic : cstring) (h : heap) (p : addr) (buffer : wbuf)
  : option wbuf := serialize magic (depth p) h p buffer.

Definition call_destroy (p : addr) (s : store) : option store :=
  destroy (depth p) p s.

(** ** Reading a serialised plugin back *)

(** Modelled from the spec: the reading side is the plugin factory and the
    deserialising constructor of the operator, neither among the sources.  "A
    factory receives a serialized byte buffer, reads the magic marker and type
    string [...], selects a constructor for the named operator, and passes
    remaining bytes to that constructor's deserialization path, which
    typically calls into the base class's shared deserialization helper before
    operator-specific fields."  The result is the type name read, the base
    state rebuilt in the instance [fresh], and the operator's own bytes. *)
Definition read_plugin (magic : cstring) (fresh : Plugin.t) (data : rbuf)
  : option (cstring * Plugin.t * rbuf) :=
  '(marker, data) ← deserialize_value Serializer.cstr data;
  if decide (marker = c_str magic) then
    '(plugin_type, data) ← deserialize_value Serializer.cstr data;
    '(self, data) ← Plugin.deserializeBase fresh data;
    Some (plugin_type, self, data)
  else None.

(** ** Chains of wrappers *)

(** A [TypeSerializingPlugin] is itself a [Plugin], so wrappers nest.
    [unwrap] follows the [_plugin] pointers from [p] down to the plugin that
    is not a wrapper, and counts the wrappers passed on the way. *)
Fixpoint unwrap (n : nat) (h : heap) (p : addr) : option (nat * Stub) :=
  match n with
  | O => None
  | S n' =>
      match h !! p with
      | None => None
      | Some (Foreign s) => Some (O, s)
      | Some (TypeSerializing w) =>
          '(k, s) ← unwrap n' h (TypeSerializingPlugin._plugin w);
          Some (S k, s)
      end
  end.

Definition call_unwrap (h : heap) (p : addr) : option (nat * Stub) :=
  unwrap (depth p) h p.

(** What one wrapper puts in front of the bytes of the plugin it wraps. *)
Definition header (magic ty : cstring) : list byte :=
  (c_str magic ++ [x00]) ++ (c_str ty ++ [x00]).

(** The plugins reached from [p] through the owning handles, innermost
    first, [p] last. *)
Fixpoint owned_chain (n : nat) (h : heap) (p : addr) : option (list addr) :=
  match n with
  | O => None
  | S n' =>
      match h !! p with
      | None => None
      | Some (Foreign _) => Some [p]
      | Some (TypeSerializing w) =>
          match TypeSerializingPlugin._owned_plugin w with
          | None => Some [p]
          | Some q => l ← owned_chain n' h q; Some (l ++ [p])
          end
      end
  end.

(** The store without the objects listed. *)
Definition delete_all (l : list addr) (h : heap) : heap :=
  foldl (fun m x => delete x m) h l.

(** No plugin is wrapped by two wrappers. *)
Definition exclusive (h : heap) : Prop :=
  forall b b' w w',
    h !! b = Some (TypeSerializing w) -> h !! b' = Some (TypeSerializing w') ->
    TypeSerializingPlugin._plugin w = TypeSerializingPlugin._plugin w' -> b = b'.

(** No wrapper wraps [p]. *)
Definition unowned (h : heap) (p : addr) : Prop :=
  forall b w, h !! b = Some (TypeSerializing w) ->
              TypeSerializingPlugin._plugin w <> p.

(** [new TypeSerializingPlugin(plugin)], the new object getting the identity
    [this]. *)
Definition construct (this : addr) (base : Plugin.t) (plugin : addr) (h : heap)
  : heap :=
  <[this := TypeSerializing (TypeSerializingPlugin.make base plugin)]> h.

(** ** Example data *)

(** The scenario of the spec: an operator "MyOp" configured with two inputs
    of shapes [1,3,224,224] and [1,64], batch size 8, 32-bit floats, linear
    format. *)
Definition dims_image : Dims := {| nbDims := 4; d := [1; 3; 224; 224; 0; 0; 0; 0] |}.
Definition dims_features : Dims := {| nbDims := 2; d := [1; 64; 0; 0; 0; 0; 0; 0] |}.
Definition unconfigured : Plugin.t :=
  {| Plugin._input_dims := []; Plugin._max_batch_size := 0;
     Plugin._data_type := 0; Plugin._data_format := 0 |}.
Definition configured : Plugin.t :=
  {| Plugin._input_dims := [dims_image; dims_features];
     Plugin._max_batch_size := 8;
     Plugin._data_type := kFLOAT; Plugin._data_format := kLINEAR |}.


(** The characters of a marker and of the type name "MyOp". *)
Definition example_magic : cstring :=
  [Init.Byte.x5f; Init.Byte.x5f; Init.Byte.x70; Init.Byte.x6c; Init.Byte.x75;
   Init.Byte.x67; Init.Byte.x69; Init.Byte.x6e].
Definition MyOp_type : cstring :=
  [Init.Byte.x4d; Init.Byte.x79; Init.Byte.x4f; Init.Byte.x70].

(** "MyOp" as the header sees it: its image is the base block of its
    configured state followed by one byte of its own. *)
Definition MyOp : Stub :=
  {| stub_extended := true;
     stub_type := MyOp_type;
     stub_nbOutputs := 1;
     stub_outputDimensions := fun _ _ _ => dims_features;
     stub_image := Plugin.base_image configured ++ [Init.Byte.x2a];
     stub_serializationSize := 97;
     stub_initialize := 0;
     stub_supportsFormat := fun type format =>
       Z.eqb type kFLOAT && Z.eqb format kLINEAR;
     stub_workspaceSize := fun _ => 0;
     stub_enqueue := fun _ _ _ _ _ => 0;
     stub_calls := [] |}.

(** The operator at 1, wrapped by a [TypeSerializingPlugin] at 2. *)
Definition example_heap : heap :=
  <[2%positive := TypeSerializing (TypeSerializingPlugin.make unconfigured 1%positive)]>
    (<[1%positive := Foreign MyOp]> ∅).

(** A wrapper of the wrapper: 3 wraps 2, which wraps the operator at 1. *)
Definition nested_heap : heap := construct 3%positive unconfigured 2%positive example_heap.

(** Two wrappers, 2 and 3, constructed from the same operator at 1. *)
Definition shared_heap : heap := construct 3%positive unconfigured 1%positive example_heap.

(** A marker with a NUL inside: "ab\0c". *)
Definition split_magic : cstring :=
  [Init.Byte.x61; Init.Byte.x62; Init.Byte.x00; Init.Byte.x63].


(** * Properties *)

(** ** Machine integers and bytes *)

Lemma to_size_t_range z : is_size_t (to_size_t z).
Proof. unfold is_size_t, to_size_t, size_t_modulus. apply Z.mod_pos_bound. lia. Qed.

Lemma to_size_t_id z : is_size_t z -> to_size_t z = z.
Proof. unfold is_size_t, to_size_t. intros H. apply Z.mod_small. exact H. Qed.

Lemma to_int_id z : is_int z -> to_int z = z.
Proof.
  unfold is_int, to_int. intros H.
  rewrite Z.mod_small by lia. lia.
Qed.

Lemma to_int_wrap z : is_int z -> to_int (z mod 2 ^ 32) = z.
Proof.
  unfold is_int, to_int. intros H.
  destruct (decide (0 <= z)) as [Hz|Hz].
  - rewrite (Z.mod_small z) by lia. rewrite Z.mod_small by lia. lia.
  - replace (z mod 2 ^ 32) with (z + 2 ^ 32).
    + replace (z + 2 ^ 32 + 2 ^ 31) with (z + 2 ^ 31 + 1 * 2 ^ 32) by lia.
      rewrite Z.mod_add by lia. rewrite Z.mod_small by lia. lia.
    + symmetry. replace z with (z + 2 ^ 32 + (-1) * 2 ^ 32) at 1 by lia.
      rewrite Z.mod_add by lia. apply Z.mod_small. lia.
Qed.

Lemma byte_to_Z_range b : 0 <= byte_to_Z b < 256.
Proof.
  unfold byte_to_Z. pose proof (Strings.Byte.to_N_bounded b). lia.
Qed.

Lemma byte_to_of_Z z : byte_to_Z (byte_of_Z z) = z mod 256.
Proof.
  unfold byte_to_Z, byte_of_Z.
  pose proof (Z.mod_pos_bound z 256 ltac:(lia)) as Hr.
  destruct (Strings.Byte.of_N (Z.to_N (z mod 256))) as [b|] eqn:E.
  - simpl. apply Strings.Byte.to_of_N in E. rewrite E. lia.
  - apply Strings.Byte.of_N_None_iff in E. lia.
Qed.

Lemma length_le_bytes k z : length (le_bytes k z) = k.
Proof. revert z. induction k as [|k IH]; intros z; simpl; [reflexivity|]. now rewrite IH. Qed.

Lemma le_value_bytes k z :
  0 <= z < 256 ^ Z.of_nat k -> le_value (le_bytes k z) = z.
Proof.
  revert z. induction k as [|k IH]; intros z Hz.
  - simpl in *. lia.
  - cbn [le_bytes le_value]. rewrite byte_to_of_Z.
    rewrite IH.
    + pose proof (Z.div_mod z 256 ltac:(lia)). lia.
    + rewrite Nat2Z.inj_succ, Z.pow_succ_r in Hz by lia.
      split; [apply Z.div_pos; lia|].
      apply Z.div_lt_upper_bound; lia.
Qed.

(** ** Writing at a cursor *)

Lemma poke_length bs w w' :
  poke bs w = Some w' ->
  length (mem w') = length (mem w) /\ pos w' = (pos w + length bs)%nat.
Proof.
  unfold poke. destruct (decide _) as [Hle|]; [|discriminate].
  intros [= <-]; simpl. split; [|reflexivity].
  rewrite !length_app, length_take, length_drop. lia.
Qed.

Lemma poke_Some bs w :
  (pos w + length bs <= length (mem w))%nat ->
  poke bs w = Some {| mem := take (pos w) (mem w) ++ bs
                              ++ drop (pos w + length bs) (mem w);
                      pos := (pos w + length bs)%nat |}.
Proof. intros H. unfold poke. now rewrite decide_True. Qed.

Lemma poke_None bs w :
  ~ (pos w + length bs <= length (mem w))%nat -> poke bs w = None.
Proof. intros H. unfold poke. now rewrite decide_False. Qed.

(** Two copies in a row are the copy of the concatenation. *)
Lemma poke_app a b w : poke (a ++ b) w = poke a w ≫= poke b.
Proof.
  destruct w as [m p].
  destruct (decide (p + length a <= length m)%nat) as [Ha|Ha].
  - rewrite (poke_Some a) by exact Ha. cbn [mbind option_bind mem pos].
    destruct (decide (p + (length a + length b) <= length m)%nat) as [Hab|Hab].
    + rewrite (poke_Some (a ++ b)) by (cbn [mem pos]; rewrite length_app; lia).
      rewrite (poke_Some b)
        by (cbn [mem pos]; rewrite !length_app, length_take, length_drop; lia).
      cbn [mem pos]. rewrite length_app. f_equal. f_equal; [|lia].
      rewrite (app_assoc (take p m) a (drop _ m)).
      rewrite (take_app_length' (take p m ++ a)) by (rewrite length_app, length_take; lia).
      rewrite drop_app_ge by (rewrite length_app, length_take; lia).
      rewrite drop_drop, length_app, length_take.
      rewrite <- !app_assoc. do 3 f_equal. f_equal. lia.
    + rewrite (poke_None (a ++ b)) by (cbn [mem pos]; rewrite length_app; lia).
      rewrite (poke_None b)
        by (cbn [mem pos]; rewrite !length_app, length_take, length_drop; lia).
      reflexivity.
  - rewrite (poke_None a) by exact Ha.
    rewrite (poke_None (a ++ b)) by (cbn [mem pos]; rewrite length_app; lia).
    reflexivity.
Qed.

Lemma writes_poke bs : writes (poke bs) bs.
Proof. intros w. reflexivity. Qed.

Lemma writes_bind f g a b :
  writes f a -> writes g b -> writes (fun w => f w ≫= g) (a ++ b).
Proof.
  intros Hf Hg w. rewrite poke_app, Hf.
  destruct (poke a w) as [w1|]; simpl; [apply Hg | reflexivity].
Qed.

(** What a writer writes is determined by the writer: any buffer with enough
    room shows it. *)
Lemma writes_inj f a b : writes f a -> writes f b -> a = b.
Proof.
  intros Ha Hb.
  assert (forall x y : list byte, (length x <= length y)%nat ->
            poke x {| mem := y; pos := 0 |} = poke y {| mem := y; pos := 0 |} -> x = y)
    as Hkey.
  { intros x y Hxy. unfold poke; simpl.
    rewrite decide_True by lia. rewrite decide_True by lia.
    intros [= Hm Hp]. rewrite drop_all, app_nil_r in Hm.
    apply (f_equal (take (length x))) in Hm.
    rewrite take_app_length in Hm.
    rewrite Hp, firstn_all in Hm. exact Hm. }
  destruct (Nat.le_ge_cases (length a) (length b)).
  - apply Hkey; [assumption|]. now rewrite <- Ha, <- Hb.
  - symmetry. apply Hkey; [assumption|]. now rewrite <- Ha, <- Hb.
Qed.

(** ** C strings *)

Lemma is_nul_false b : is_nul b = false <-> b <> x00.
Proof.
  unfold is_nul. split.
  - apply Strings.Byte.eqb_false.
  - intros H. destruct (Strings.Byte.eqb b x00) eqn:E; [|reflexivity].
    apply Strings.Byte.byte_dec_bl in E. contradiction.
Qed.

Lemma c_str_no_nul s : no_nul s -> c_str s = s.
Proof.
  induction 1 as [|b s Hb _ IH]; [reflexivity|].
  simpl. apply is_nul_false in Hb. rewrite Hb. now rewrite IH.
Qed.

Lemma no_nul_c_str s : no_nul (c_str s).
Proof.
  induction s as [|b s IH]; simpl; [constructor|].
  destruct (is_nul b) eqn:E; constructor; [|exact IH].
  now apply is_nul_false.
Qed.

Lemma strlen_no_nul s : no_nul s -> strlen s = Z.of_nat (length s).
Proof. intros H. unfold strlen. now rewrite c_str_no_nul. Qed.

(** Reading back a copied string gives the string value and the bytes that
    follow its terminator. *)
Lemma read_cstr_c_str s rest :
  Serializer.read_cstr (c_str s ++ x00 :: rest) = Some (c_str s, rest).
Proof.
  pose proof (no_nul_c_str s) as H. induction H as [|b t Hb _ IH]; [reflexivity|].
  simpl. apply is_nul_false in Hb. rewrite Hb. rewrite IH. reflexivity.
Qed.

(** ** Object representations *)

Lemma Pod_size_t_ok : Pod_ok Pod_size_t is_size_t.
Proof.
  intros z Hz. cbn [repr unrepr sizeof Pod_size_t]. split; [apply length_le_bytes|].
  rewrite to_size_t_id by exact Hz. apply le_value_bytes.
  unfold is_size_t, size_t_modulus in Hz. lia.
Qed.

Lemma Pod_int_ok : Pod_ok Pod_int is_int.
Proof.
  intros z Hz. cbn [repr unrepr sizeof Pod_int]. split; [apply length_le_bytes|].
  rewrite le_value_bytes.
  - now apply to_int_wrap.
  - pose proof (Z.mod_pos_bound z (2 ^ 32) ltac:(lia)). lia.
Qed.

Lemma length_repr_array {T} (P : Pod T) valid xs :
  Pod_ok P valid -> Forall valid xs ->
  length (repr_array P xs) = (length xs * sizeof P)%nat.
Proof.
  intros HP. induction 1 as [|x xs Hx _ IH]; [reflexivity|].
  unfold repr_array in *. simpl. rewrite length_app, IH.
  destruct (HP x Hx) as [-> _]. reflexivity.
Qed.

Lemma unrepr_repr_array {T} (P : Pod T) valid xs :
  Pod_ok P valid -> Forall valid xs ->
  unrepr_array P (length xs) (repr_array P xs) = xs.
Proof.
  intros HP. induction 1 as [|x xs Hx _ IH]; [reflexivity|].
  destruct (HP x Hx) as [Hlen Hval].
  unfold repr_array in *. simpl.
  rewrite take_app_length' by (symmetry; exact Hlen).
  rewrite drop_app_length' by (symmetry; exact Hlen).
  now rewrite Hval, IH.
Qed.

Lemma Pod_Dims_ok : Pod_ok Pod_Dims Dims_ok.
Proof.
  intros [nb ds] (Hnb & Hlen & Hds). simpl in Hnb, Hlen, Hds.
  assert (map (fun i => nth i ds 0) (seq 0 MAX_DIMS) = ds) as Hmap.
  { unfold MAX_DIMS in *.
    do 9 (destruct ds as [|? ds]; try discriminate Hlen). reflexivity. }
  assert (Forall is_int (map (fun i => nth i ds 0) (seq 0 MAX_DIMS))) as Hall
    by (rewrite Hmap; exact Hds).
  destruct (Pod_int_ok nb Hnb) as [Hl4 Hv4].
  cbn [repr unrepr sizeof Pod_Dims nbDims d]. split.
  - rewrite length_app, Hl4.
    rewrite (length_repr_array Pod_int is_int) by (exact Pod_int_ok || exact Hall).
    rewrite length_map, length_seq. reflexivity.
  - rewrite take_app_length' by (rewrite Hl4; reflexivity).
    rewrite drop_app_length' by (rewrite Hl4; reflexivity).
    rewrite Hv4. f_equal.
    replace MAX_DIMS with (length (map (fun i => nth i ds 0) (seq 0 MAX_DIMS))) at 1
      by (rewrite length_map, length_seq; reflexivity).
    rewrite (unrepr_repr_array Pod_int is_int) by (exact Pod_int_ok || exact Hall).
    exact Hmap.
Qed.

(** ** Serialisers *)

Lemma deserialize_pod {T} (P : Pod T) valid v rest :
  Pod_ok P valid -> valid v ->
  deserialize_value (Serializer.pod P) (repr P v ++ rest) = Some (v, rest).
Proof.
  intros HP Hv. destruct (HP v Hv) as [Hlen Hval].
  unfold deserialize_value. cbn [Serializer.deserialize Serializer.pod].
  rewrite decide_True by (rewrite length_app; lia).
  rewrite take_app_length' by (symmetry; exact Hlen).
  rewrite drop_app_length' by (symmetry; exact Hlen).
  now rewrite Hval.
Qed.

Lemma serialize_vector_writes {T} (P : Pod T) xs :
  writes (fun w => serialize_value (Serializer.vector P) w xs)
         (repr Pod_size_t (Z.of_nat (length xs)) ++ repr_array P xs).
Proof.
  unfold serialize_value. cbn [Serializer.serialize Serializer.vector Serializer.pod].
  apply (writes_bind (poke _) (poke _)); apply writes_poke.
Qed.

Lemma deserialize_vector {T} (P : Pod T) valid xs rest :
  Pod_ok P valid -> Forall valid xs -> is_size_t (Z.of_nat (length xs)) ->
  deserialize_value (Serializer.vector P)
    (repr Pod_size_t (Z.of_nat (length xs)) ++ repr_array P xs ++ rest)
  = Some (xs, rest).
Proof.
  intros HP Hxs Hlen.
  unfold deserialize_value. cbn [Serializer.deserialize Serializer.vector].
  pose proof (deserialize_pod Pod_size_t is_size_t _ (repr_array P xs ++ rest)
                Pod_size_t_ok Hlen) as Hsz.
  unfold deserialize_value in Hsz. rewrite Hsz. cbn [mbind option_bind].
  rewrite Nat2Z.id.
  pose proof (length_repr_array P valid xs HP Hxs) as Hbytes.
  rewrite decide_True by (rewrite length_app; lia).
  rewrite take_app_length' by (symmetry; exact Hbytes).
  rewrite drop_app_length' by (symmetry; exact Hbytes).
  now rewrite (unrepr_repr_array P valid).
Qed.

(** ** The base serialisation block *)

Lemma serializeBase_writes p : writes (Plugin.serializeBase p) (Plugin.base_image p).
Proof.
  unfold Plugin.serializeBase, Plugin.base_image.
  rewrite app_assoc.
  apply (writes_bind (fun w => serialize_value (Serializer.vector Pod_Dims) w _));
    [apply serialize_vector_writes|].
  apply (writes_bind (poke _)); [apply writes_poke|].
  apply (writes_bind (poke _) (poke _)); apply writes_poke.
Qed.

Lemma vector_max_size_size_t n : 0 <= n <= vector_max_size -> is_size_t n.
Proof.
  unfold is_size_t, size_t_modulus. intros [H0 H1].
  assert (vector_max_size < 2 ^ 64) by (vm_compute; reflexivity). lia.
Qed.

(** [deserializeBase] reads the four fields that [serializeBase] wrote and
    leaves the cursor on the byte after them. *)
Lemma deserializeBase_base_image fresh p rest :
  Plugin.ok p ->
  Plugin.deserializeBase fresh (Plugin.base_image p ++ rest) = Some (p, rest).
Proof.
  intros (Hdims & Hmax & Hbatch & Hty & Hfmt).
  unfold Plugin.deserializeBase, Plugin.base_image.
  rewrite <- !app_assoc.
  rewrite (deserialize_vector Pod_Dims Dims_ok)
    by (exact Pod_Dims_ok || exact Hdims || (apply vector_max_size_size_t; lia)).
  cbn [mbind option_bind].
  rewrite (deserialize_pod Pod_size_t is_size_t) by (exact Pod_size_t_ok || exact Hbatch).
  cbn [mbind option_bind].
  rewrite (deserialize_pod Pod_int is_int) by (exact Pod_int_ok || exact Hty).
  cbn [mbind option_bind].
  rewrite (deserialize_pod Pod_int is_int) by (exact Pod_int_ok || exact Hfmt).
  cbn [mbind option_bind].
  destruct p; reflexivity.
Qed.

(** [getBaseSerializationSize] is the number of bytes [serializeBase]
    writes. *)
Lemma getBaseSerializationSize_base_image p :
  Plugin.ok p ->
  Plugin.getBaseSerializationSize p = Z.of_nat (length (Plugin.base_image p)).
Proof.
  intros (Hdims & Hmax & Hbatch & Hty & Hfmt).
  assert (vector_max_size < 2 ^ 58) as Hbig by (vm_compute; reflexivity).
  unfold Plugin.getBaseSerializationSize, Plugin.base_image.
  cbn [Serializer.serialized_size Serializer.vector Serializer.pod].
  rewrite !length_app.
  rewrite (length_repr_array Pod_Dims Dims_ok) by (exact Pod_Dims_ok || exact Hdims).
  destruct (Pod_size_t_ok _ (vector_max_size_size_t _ (conj (Nat2Z.is_nonneg _) Hmax)))
    as [-> _].
  destruct (Pod_size_t_ok _ Hbatch) as [-> _].
  destruct (Pod_int_ok _ Hty) as [-> _]. destruct (Pod_int_ok _ Hfmt) as [-> _].
  cbn [sizeof Pod_size_t Pod_int Pod_Dims]. unfold MAX_DIMS.
  change (Z.of_nat (4 + 4 * 8)) with 36.
  change (Z.of_nat 8) with 8. change (Z.of_nat 4) with 4.
  rewrite (to_size_t_id (8 + _ * 36)) by (unfold is_size_t, size_t_modulus; lia).
  rewrite to_size_t_id by (unfold is_size_t, size_t_modulus; lia).
  lia.
Qed.

(** ** class [Plugin] *)

(** C7. The defaults of the base class, for every instance in every state:
    [getWorkspaceSize] returns 0 whatever the batch size, [initialize]
    returns 0 and leaves the state as it is, and [terminate] leaves the state
    as it is. *)
Theorem Plugin_lifecycle_defaults (self : Plugin.t) (maxBatchSize : Z) :
  Plugin.getWorkspaceSize self maxBatchSize = 0
  /\ Plugin.initialize self = (0, self)
  /\ Plugin.terminate self = self
  /\ Plugin.step Plugin.terminate_ (Plugin.Alive self) = Some (Plugin.Alive self).
Proof. repeat split. Qed.

Lemma vector_at_valid {A} (v : list A) (n : Z) x :
  0 <= n -> v !! Z.to_nat n = Some x -> vector_at v n = Returns x.
Proof.
  intros Hn Hx. unfold vector_at.
  apply lookup_lt_Some in Hx as Hlt.
  rewrite decide_True by lia. now rewrite Hx.
Qed.

Lemma vector_at_invalid {A} (v : list A) (n : Z) :
  Z.of_nat (length v) <= n -> vector_at v n = Throws out_of_range.
Proof. intros Hn. unfold vector_at. now rewrite decide_False by lia. Qed.

(** C10. [getInputDims(index)] is bounds-checked.  For an [int] index and a
    vector within its maximal size: at a valid position (0 <= index <
    size) the call returns the dims cached at that position; at any other
    index, negative ones included, it throws [std::out_of_range]. *)
Theorem getInputDims_bounds_checked (self : Plugin.t) (index : Z) :
  is_int index ->
  Z.of_nat (length (Plugin._input_dims self)) <= vector_max_size ->
  (0 <= index < Z.of_nat (length (Plugin._input_dims self)) ->
     exists dims, Plugin._input_dims self !! Z.to_nat index = Some dims
                  /\ Plugin.getInputDims self index = Returns dims)
  /\ (~ 0 <= index < Z.of_nat (length (Plugin._input_dims self)) ->
     Plugin.getInputDims self index = Throws out_of_range).
Proof.
  intros Hint Hmax. unfold Plugin.getInputDims.
  assert (vector_max_size < 2 ^ 62) as Hbig by (vm_compute; reflexivity).
  unfold is_int in Hint. split.
  - intros Hidx.
    destruct (lookup_lt_is_Some_2 (Plugin._input_dims self) (Z.to_nat index))
      as [dims Hd]; [lia|].
    exists dims. split; [exact Hd|].
    rewrite to_size_t_id by (unfold is_size_t, size_t_modulus; lia).
    apply vector_at_valid; [lia | exact Hd].
  - intros Hidx. apply vector_at_invalid.
    destruct (decide (0 <= index)) as [Hpos|Hneg].
    + rewrite to_size_t_id by (unfold is_size_t, size_t_modulus; lia). lia.
    + unfold to_size_t, size_t_modulus.
      replace index with (index + 2 ^ 64 + (-1) * 2 ^ 64) by lia.
      rewrite Z.mod_add by lia. rewrite Z.mod_small by lia. lia.
Qed.

Lemma getInputDims_bounds_checked_witness :
  let self := {| Plugin._input_dims := [{| nbDims := 2; d := [1; 64; 0; 0; 0; 0; 0; 0] |}];
                 Plugin._max_batch_size := 8;
                 Plugin._data_type := kFLOAT;
                 Plugin._data_format := kLINEAR |} in
  Plugin.getInputDims self 0 = Returns {| nbDims := 2; d := [1; 64; 0; 0; 0; 0; 0; 0] |}
  /\ Plugin.getInputDims self (-1) = Throws out_of_range
  /\ Plugin.getInputDims self 1 = Throws out_of_range.
Proof.
  intros self.
  assert (is_int 0 /\ is_int (-1) /\ is_int 1) as (H0 & Hm & H1)
    by (unfold is_int; lia).
  assert (Z.of_nat (length (Plugin._input_dims self)) <= vector_max_size) as Hmax
    by (vm_compute; discriminate).
  split; [|split].
  - destruct (getInputDims_bounds_checked self 0 H0 Hmax) as [Hin _].
    destruct Hin as (dims & Hd & Hr); [simpl; lia|].
    simpl in Hd. injection Hd as <-. exact Hr.
  - destruct (getInputDims_bounds_checked self (-1) Hm Hmax) as [_ Hout].
    apply Hout. simpl. lia.
  - destruct (getInputDims_bounds_checked self 1 H1 Hmax) as [_ Hout].
    apply Hout. simpl. lia.
Defined.






(** C8, as the code has it.  [destroy()] deletes the instance.  The
    destructor of [Plugin] is protected, so for a caller outside the classes
    who holds the object as a [Plugin], [destroy()] is the only action that
    ends the life of a live instance: neither [delete] nor an explicit
    destructor call is permitted, and no other public member ends it.  The
    three derived classes declare no destructor and so have a public one:
    through a pointer of a derived type [delete] is permitted as well, and
    deletes the instance. *)
Theorem destroy_only_teardown_through_Plugin (self : Plugin.t) :
  Plugin.step Plugin.destroy_ (Plugin.Alive self) = Some Plugin.Deleted
  /\ dtor_access Plugin_class = Plugin.Protected
  /\ (forall c, permitted c (Invoke Plugin.destroy_) = true)
  /\ (forall a i,
        permitted Plugin_class a = true ->
        act a (Plugin.Alive self) = Some i ->
        (forall self', i <> Plugin.Alive self') ->
        a = Invoke Plugin.destroy_)
  /\ (forall c, c <> Plugin_class ->
        permitted c DeleteExpr = true
        /\ act DeleteExpr (Plugin.Alive self) = Some Plugin.Deleted).
Proof.
  split; [reflexivity|]. split; [reflexivity|].
  split; [intros c; reflexivity|]. split.
  - intros a i Hacc Hact Hdead. destruct a as [m|]; [|discriminate Hacc].
    destruct m; simpl in Hacc, Hact; try discriminate; try reflexivity;
      try (injection Hact as <-; exfalso; eapply Hdead; reflexivity).
    destruct (Plugin.configureWithFormat _ _ _ _ _ _ _ _) as [self'|];
      simpl in Hact; [|discriminate].
    injection Hact as <-. exfalso. eapply Hdead. reflexivity.
  - intros c Hc. destruct c; [contradiction| | |]; split; reflexivity.
Qed.

(** The claim C8 as worded, that no caller outside the classes can destroy a
    plugin other than through [destroy()], fails for a caller who holds the
    object as a [TypeSerializingPlugin]: [delete] is permitted, it is not
    [destroy()], and it deletes the instance. *)
Lemma derived_class_delete_bypasses_destroy :
  permitted TypeSerializingPlugin_class DeleteExpr = true
  /\ DeleteExpr <> Invoke Plugin.destroy_
  /\ act DeleteExpr (Plugin.Alive configured) = Some Plugin.Deleted.
Proof. split; [reflexivity|]. split; [discriminate | reflexivity]. Qed.

(** ** Virtual calls in a store as the constructors leave it *)

Lemma heap_ok_wrapped h a w :
  heap_ok h -> h !! a = Some (TypeSerializing w) ->
  (depth (TypeSerializingPlugin._plugin w) < depth a)%nat
  /\ is_Some (h !! TypeSerializingPlugin._plugin w)
  /\ TypeSerializingPlugin._owned_plugin w = Some (TypeSerializingPlugin._plugin w)
  /\ PluginAdapter._plugin (TypeSerializingPlugin.adapter w)
     = TypeSerializingPlugin._plugin w.
Proof.
  intros Hok Ha. destruct (Hok a w Ha) as (base & p & -> & Hlt & Hp).
  simpl. unfold depth. repeat split; [|exact Hp].
  now apply Pos2Nat.inj_lt.
Qed.

Lemma depth_pos p : (0 < depth p)%nat.
Proof. apply Pos2Nat.is_pos. Qed.

Lemma getPluginType_bound h : heap_ok h -> forall n m p,
  (depth p <= n)%nat -> (depth p <= m)%nat ->
  getPluginType n h p = getPluginType m h p.
Proof.
  intros Hok. induction n as [|n IH]; intros m p Hn Hm; [pose proof (depth_pos p); lia|].
  destruct m as [|m]; [pose proof (depth_pos p); lia|].
  cbn [getPluginType].
  destruct (h !! p) as [[s|w]|] eqn:Hp; [reflexivity| |reflexivity].
  destruct (heap_ok_wrapped _ _ _ Hok Hp) as (? & _ & _ & _).
  unfold TypeSerializingPlugin.getPluginType. apply IH; lia.
Qed.

Lemma getSerializationSize_bound magic h : heap_ok h -> forall n m p,
  (depth p <= n)%nat -> (depth p <= m)%nat ->
  getSerializationSize magic n h p = getSerializationSize magic m h p.
Proof.
  intros Hok. induction n as [|n IH]; intros m p Hn Hm; [pose proof (depth_pos p); lia|].
  destruct m as [|m]; [pose proof (depth_pos p); lia|].
  cbn [getSerializationSize].
  destruct (h !! p) as [[s|w]|] eqn:Hp; [reflexivity| |reflexivity].
  destruct (heap_ok_wrapped _ _ _ Hok Hp) as (? & _ & _ & _).
  unfold TypeSerializingPlugin.getSerializationSize.
  rewrite (getPluginType_bound h Hok n m) by lia.
  rewrite (IH m) by lia. reflexivity.
Qed.

Lemma serialize_bound magic h : heap_ok h -> forall n m p buffer,
  (depth p <= n)%nat -> (depth p <= m)%nat ->
  serialize magic n h p buffer = serialize magic m h p buffer.
Proof.
  intros Hok. induction n as [|n IH]; intros m p buffer Hn Hm;
    [pose proof (depth_pos p); lia|].
  destruct m as [|m]; [pose proof (depth_pos p); lia|].
  cbn [serialize].
  destruct (h !! p) as [[s|w]|] eqn:Hp; [reflexivity| |reflexivity].
  destruct (heap_ok_wrapped _ _ _ Hok Hp) as (? & _ & _ & _).
  unfold TypeSerializingPlugin.serialize.
  rewrite (getPluginType_bound h Hok n m) by lia.
  destruct (getPluginType m h _) as [ty|]; [|reflexivity]. cbn [mbind option_bind].
  destruct (serialize_value _ buffer magic) as [b1|]; [|reflexivity].
  cbn [mbind option_bind].
  destruct (serialize_value _ b1 ty) as [b2|]; [|reflexivity].
  cbn [mbind option_bind]. apply IH; lia.
Qed.

(** One step of a call on a wrapper, in terms of the calls on the plugin it
    wraps. *)
Lemma call_getPluginType_wrapper h a w :
  heap_ok h -> h !! a = Some (TypeSerializing w) ->
  call_getPluginType h a
  = TypeSerializingPlugin.getPluginType (call_getPluginType h) w.
Proof.
  intros Hok Ha. destruct (heap_ok_wrapped _ _ _ Hok Ha) as (Hlt & _ & _ & _).
  unfold call_getPluginType at 1.
  destruct (depth a) as [|n] eqn:Hd; [lia|].
  cbn [getPluginType]. rewrite Ha.
  unfold TypeSerializingPlugin.getPluginType, call_getPluginType.
  apply getPluginType_bound; [exact Hok|lia|lia].
Qed.

Lemma call_getSerializationSize_wrapper magic h a w :
  heap_ok h -> h !! a = Some (TypeSerializing w) ->
  call_getSerializationSize magic h a
  = TypeSerializingPlugin.getSerializationSize magic
      (call_getPluginType h) (call_getSerializationSize magic h) w.
Proof.
  intros Hok Ha. destruct (heap_ok_wrapped _ _ _ Hok Ha) as (Hlt & _ & _ & _).
  unfold call_getSerializationSize at 1.
  destruct (depth a) as [|n] eqn:Hd; [lia|].
  cbn [getSerializationSize]. rewrite Ha.
  unfold TypeSerializingPlugin.getSerializationSize,
    call_getPluginType, call_getSerializationSize.
  rewrite (getPluginType_bound h Hok n (depth (TypeSerializingPlugin._plugin w))) by lia.
  rewrite (getSerializationSize_bound magic h Hok n
             (depth (TypeSerializingPlugin._plugin w))) by lia.
  reflexivity.
Qed.

Lemma call_serialize_wrapper magic h a w buffer :
  heap_ok h -> h !! a = Some (TypeSerializing w) ->
  call_serialize magic h a buffer
  = TypeSerializingPlugin.serialize magic
      (call_getPluginType h) (call_serialize magic h) w buffer.
Proof.
  intros Hok Ha. destruct (heap_ok_wrapped _ _ _ Hok Ha) as (Hlt & _ & _ & _).
  unfold call_serialize at 1.
  destruct (depth a) as [|n] eqn:Hd; [lia|].
  cbn [serialize]. rewrite Ha.
  unfold TypeSerializingPlugin.serialize, call_getPluginType, call_serialize.
  rewrite (getPluginType_bound h Hok n (depth (TypeSerializingPlugin._plugin w))) by lia.
  destruct (getPluginType _ h _) as [ty|]; [|reflexivity]. cbn [mbind option_bind].
  destruct (serialize_value _ buffer magic) as [b1|]; [|reflexivity].
  cbn [mbind option_bind].
  destruct (serialize_value _ b1 ty) as [b2|]; [|reflexivity].
  cbn [mbind option_bind]. apply serialize_bound; [exact Hok|lia|lia].
Qed.

Lemma call_foreign h p s magic :
  h !! p = Some (Foreign s) ->
  call_getPluginType h p = Some (stub_type s)
  /\ call_getSerializationSize magic h p = Some (stub_serializationSize s)
  /\ writes (call_serialize magic h p) (stub_image s).
Proof.
  intros Hp. pose proof (depth_pos p).
  unfold call_getPluginType, call_getSerializationSize, call_serialize, writes.
  destruct (depth p) as [|n]; [lia|].
  cbn [getPluginType getSerializationSize serialize]. rewrite Hp. auto.
Qed.

Lemma call_getPluginType_is_Some h : heap_ok h -> forall p,
  is_Some (h !! p) -> is_Some (call_getPluginType h p).
Proof.
  intros Hok.
  assert (forall n p, (depth p <= n)%nat -> is_Some (h !! p) ->
                      is_Some (call_getPluginType h p)) as Hind.
  { induction n as [|n IH]; intros p Hn Hp; [pose proof (depth_pos p); lia|].
    destruct (h !! p) as [[s|w]|] eqn:Hlook.
    - destruct (call_foreign h p s [] Hlook) as [-> _]. eauto.
    - destruct (heap_ok_wrapped _ _ _ Hok Hlook) as (Hlt & Hq & _ & _).
      rewrite (call_getPluginType_wrapper h p w Hok Hlook).
      apply IH; [lia | exact Hq].
    - destruct Hp as [? Hp]. discriminate Hp. }
  intros p. apply (Hind (depth p)). lia.
Qed.

(** What a wrapper writes, given the type name and the bytes of the plugin it
    wraps. *)
Lemma wrapper_writes magic h a w ty payload :
  heap_ok h -> h !! a = Some (TypeSerializing w) ->
  call_getPluginType h (TypeSerializingPlugin._plugin w) = Some ty ->
  writes (call_serialize magic h (TypeSerializingPlugin._plugin w)) payload ->
  writes (call_serialize magic h a)
         ((c_str magic ++ [x00]) ++ (c_str ty ++ [x00]) ++ payload).
Proof.
  intros Hok Ha Hty Hpayload.
  assert (writes (fun buffer =>
                    poke (c_str magic ++ [x00]) buffer ≫= fun b1 =>
                    poke (c_str ty ++ [x00]) b1 ≫=
                    call_serialize magic h (TypeSerializingPlugin._plugin w))
                 ((c_str magic ++ [x00]) ++ (c_str ty ++ [x00]) ++ payload)) as H.
  { apply (writes_bind (poke _)); [apply writes_poke|].
    apply (writes_bind (poke _)); [apply writes_poke | exact Hpayload]. }
  intros buffer. rewrite (call_serialize_wrapper magic h a w buffer Hok Ha).
  unfold TypeSerializingPlugin.serialize. rewrite Hty. cbn [mbind option_bind].
  exact (H buffer).
Qed.

(** Every live plugin of such a store serialises: its [serialize] writes some
    definite sequence of bytes. *)
Lemma call_serialize_writes magic h : heap_ok h -> forall p,
  is_Some (h !! p) -> exists image, writes (call_serialize magic h p) image.
Proof.
  intros Hok.
  assert (forall n p, (depth p <= n)%nat -> is_Some (h !! p) ->
                      exists image, writes (call_serialize magic h p) image) as Hind.
  { induction n as [|n IH]; intros p Hn Hp; [pose proof (depth_pos p); lia|].
    destruct (h !! p) as [[s|w]|] eqn:Hlook.
    - exists (stub_image s). now apply call_foreign.
    - destruct (heap_ok_wrapped _ _ _ Hok Hlook) as (Hlt & Hq & _ & _).
      destruct (IH (TypeSerializingPlugin._plugin w)) as [payload Hpayload];
        [lia | exact Hq |].
      destruct (call_getPluginType_is_Some h Hok _ Hq) as [ty Hty].
      exists ((c_str magic ++ [x00]) ++ (c_str ty ++ [x00]) ++ payload).
      now apply (wrapper_writes magic h p w).
    - destruct Hp as [? Hp]. discriminate Hp. }
  intros p. apply (Hind (depth p)). lia.
Qed.

Lemma example_heap_ok : heap_ok example_heap.
Proof.
  intros a w Ha. unfold example_heap in *.
  apply lookup_insert_Some in Ha as [[<- Hw] | [_ Ha]].
  - injection Hw as <-. exists unconfigured, 1%positive.
    split; [reflexivity|]. split; [reflexivity|].
    exists (Foreign MyOp). reflexivity.
  - apply lookup_insert_Some in Ha as [[_ Hw] | [_ Ha]]; [discriminate|].
    rewrite lookup_empty in Ha. discriminate.
Qed.

(** ** class [TypeSerializingPlugin] *)

(** C9. [getPluginType()] of a wrapper returns, and what it returns is
    exactly what [getPluginType()] of the wrapped plugin returns. *)
Theorem TypeSerializingPlugin_getPluginType_forwards h a w :
  heap_ok h -> h !! a = Some (TypeSerializing w) ->
  is_Some (call_getPluginType h a)
  /\ call_getPluginType h a
     = call_getPluginType h (TypeSerializingPlugin._plugin w).
Proof.
  intros Hok Ha. split.
  - apply call_getPluginType_is_Some; [exact Hok | eauto].
  - now rewrite (call_getPluginType_wrapper h a w Hok Ha).
Qed.

Lemma TypeSerializingPlugin_getPluginType_forwards_witness :
  is_Some (call_getPluginType example_heap 2%positive)
  /\ call_getPluginType example_heap 2%positive
     = call_getPluginType example_heap 1%positive.
Proof.
  apply (TypeSerializingPlugin_getPluginType_forwards example_heap 2%positive
           (TypeSerializingPlugin.make unconfigured 1%positive) example_heap_ok).
  reflexivity.
Defined.

(** C2. [serialize(buffer)] of a wrapper writes, in this order: the magic
    marker, as [strcpy] copies it, terminator included; the type name of the
    wrapped plugin with its terminating NUL; then the bytes that [serialize]
    of the wrapped plugin writes. *)
Theorem TypeSerializingPlugin_serialize_layout magic h a w ty payload :
  heap_ok h -> h !! a = Some (TypeSerializing w) ->
  call_getPluginType h (TypeSerializingPlugin._plugin w) = Some ty ->
  writes (call_serialize magic h (TypeSerializingPlugin._plugin w)) payload ->
  writes (call_serialize magic h a)
         ((c_str magic ++ [x00]) ++ (c_str ty ++ [x00]) ++ payload).
Proof.
  intros Hok Ha Hty Hpayload. now apply (wrapper_writes magic h a w).
Qed.

Lemma TypeSerializingPlugin_serialize_layout_witness :
  writes (call_serialize example_magic example_heap 2%positive)
         ((c_str example_magic ++ [x00]) ++ (c_str MyOp_type ++ [x00])
          ++ stub_image MyOp).
Proof.
  apply (TypeSerializingPlugin_serialize_layout example_magic example_heap 2%positive
           (TypeSerializingPlugin.make unconfigured 1%positive) MyOp_type (stub_image MyOp)
           example_heap_ok).
  - reflexivity.
  - reflexivity.
  - intros buffer. reflexivity.
Defined.

(** C1. For a wrapper whose wrapped plugin reports as its serialisation size
    the number of bytes its own [serialize] writes, [getSerializationSize()]
    of the wrapper returns exactly the number of bytes [serialize()] of the
    wrapper writes, and that number is [sizeof(MAGIC) + 1 + strlen(type name)
    + wrapped size].  The marker is a literal without embedded NUL, and the
    image fits the address space. *)
Theorem TypeSerializingPlugin_size_is_bytes_written magic h a w ty payload :
  no_nul magic ->
  heap_ok h -> h !! a = Some (TypeSerializing w) ->
  call_getPluginType h (TypeSerializingPlugin._plugin w) = Some ty ->
  writes (call_serialize magic h (TypeSerializingPlugin._plugin w)) payload ->
  call_getSerializationSize magic h (TypeSerializingPlugin._plugin w)
    = Some (Z.of_nat (length payload)) ->
  sizeof_literal magic + 1 + strlen ty + Z.of_nat (length payload) < size_t_modulus ->
  exists image,
    writes (call_serialize magic h a) image
    /\ call_getSerializationSize magic h a = Some (Z.of_nat (length image))
    /\ Z.of_nat (length image)
       = sizeof_literal magic + 1 + strlen ty + Z.of_nat (length payload).
Proof.
  intros Hmagic Hok Ha Hty Hpayload Hsize Hfit.
  exists ((c_str magic ++ [x00]) ++ (c_str ty ++ [x00]) ++ payload).
  assert (Z.of_nat (length ((c_str magic ++ [x00]) ++ (c_str ty ++ [x00]) ++ payload))
          = sizeof_literal magic + 1 + strlen ty + Z.of_nat (length payload)) as Hlen.
  { rewrite (c_str_no_nul magic Hmagic). unfold sizeof_literal, strlen.
    rewrite !length_app. cbn [length]. lia. }
  split; [now apply (wrapper_writes magic h a w)|]. split; [|exact Hlen].
  rewrite (call_getSerializationSize_wrapper magic h a w Hok Ha).
  unfold TypeSerializingPlugin.getSerializationSize.
  rewrite Hty, Hsize. cbn [mbind option_bind]. f_equal.
  rewrite Hlen. apply to_size_t_id.
  unfold is_size_t, sizeof_literal, strlen in *. lia.
Qed.

Lemma example_magic_no_nul : no_nul example_magic.
Proof. repeat constructor; discriminate. Qed.

Lemma TypeSerializingPlugin_size_is_bytes_written_witness :
  exists image,
    writes (call_serialize example_magic example_heap 2%positive) image
    /\ call_getSerializationSize example_magic example_heap 2%positive
       = Some (Z.of_nat (length image))
    /\ Z.of_nat (length image)
       = sizeof_literal example_magic + 1 + strlen MyOp_type
         + Z.of_nat (length (stub_image MyOp)).
Proof.
  apply (TypeSerializingPlugin_size_is_bytes_written example_magic example_heap
           2%positive (TypeSerializingPlugin.make unconfigured 1%positive)
           MyOp_type (stub_image MyOp) example_magic_no_nul example_heap_ok).
  - reflexivity.
  - reflexivity.
  - intros buffer. reflexivity.
  - reflexivity.
  - vm_compute. reflexivity.
Defined.

(** After [configureWithFormat] with arguments of their C++ types, the cached
    fields hold values of their types. *)
Lemma configureWithFormat_ok self self' inputDims nbInputs outputDims nbOutputs
    type format maxBatchSize :
  Forall Dims_ok inputDims -> is_int nbInputs -> is_int type -> is_int format ->
  Plugin.configureWithFormat self inputDims nbInputs outputDims nbOutputs
    type format maxBatchSize = Some self' ->
  Plugin.ok self'.
Proof.
  intros Hdims Hnb Hty Hfmt Hcfg. unfold Plugin.configureWithFormat in Hcfg.
  destruct (decide _) as [Hrange|_]; [|discriminate]. injection Hcfg as <-.
  unfold Plugin.ok. cbn [Plugin._input_dims Plugin._max_batch_size
                         Plugin._data_type Plugin._data_format].
  split; [now apply Forall_take|]. split.
  - rewrite length_take.
    assert (2 ^ 31 <= vector_max_size) by (vm_compute; discriminate).
    unfold is_int in Hnb. lia.
  - split; [apply to_size_t_range|]. split; assumption.
Qed.

(** C3. Round trip.  A wrapped plugin in a state holding values of its field
    types (as [configureWithFormat] leaves it) serialises, by the convention
    for operators, the base block of that state and then its own fields.
    Reading the bytes that the wrapper's [serialize] writes (marker, type
    name, [deserializeBase], the operator's fields left for its constructor)
    yields the type name of the original and a state equal to the original's
    in all four cached fields: input dims, max batch size, data type and data
    format. *)
Theorem serialize_read_round_trip magic h a w ty (state fresh : Plugin.t) fields :
  heap_ok h -> h !! a = Some (TypeSerializing w) ->
  call_getPluginType h (TypeSerializingPlugin._plugin w) = Some ty ->
  writes (call_serialize magic h (TypeSerializingPlugin._plugin w))
         (Plugin.base_image state ++ fields) ->
  Plugin.ok state ->
  exists image,
    writes (call_serialize magic h a) image
    /\ read_plugin magic fresh image = Some (c_str ty, state, fields).
Proof.
  intros Hok Ha Hty Hpayload Hstate.
  exists ((c_str magic ++ [x00]) ++ (c_str ty ++ [x00])
          ++ Plugin.base_image state ++ fields).
  split; [now apply (wrapper_writes magic h a w)|].
  unfold read_plugin, deserialize_value at 1 2.
  cbn [Serializer.deserialize Serializer.cstr].
  rewrite <- !app_assoc. cbn [app].
  rewrite read_cstr_c_str. cbn [mbind option_bind].
  rewrite decide_True by reflexivity.
  rewrite read_cstr_c_str. cbn [mbind option_bind].
  rewrite (deserializeBase_base_image fresh state fields Hstate).
  reflexivity.
Qed.

Lemma configured_ok : Plugin.ok configured.
Proof.
  apply (configureWithFormat_ok unconfigured configured
           [dims_image; dims_features] 2 [dims_features] 1 kFLOAT kLINEAR 8).
  - repeat constructor; unfold is_int; simpl; lia.
  - unfold is_int. lia.
  - unfold is_int, kFLOAT. lia.
  - unfold is_int, kLINEAR. lia.
  - reflexivity.
Qed.

Lemma serialize_read_round_trip_witness :
  exists image,
    writes (call_serialize example_magic example_heap 2%positive) image
    /\ read_plugin example_magic unconfigured image
       = Some (MyOp_type, configured, [Init.Byte.x2a]).
Proof.
  apply (serialize_read_round_trip example_magic example_heap 2%positive
           (TypeSerializingPlugin.make unconfigured 1%positive)
           MyOp_type configured unconfigured [Init.Byte.x2a] example_heap_ok).
  - reflexivity.
  - reflexivity.
  - intros buffer. reflexivity.
  - exact configured_ok.
Defined.

(** ** class [PluginAdapter] *)

(** Whatever the virtual functions of the wrapped object do (each [call] is
    arbitrary), an operation of the adapter is the same call on [_plugin]
    with the same arguments. *)
Lemma PluginAdapter_forwards_any {H : Type} (self : PluginAdapter.t)
    (nbOutputs_ serializationSize_ : addr -> option Z)
    (outputDimensions_ : addr -> Z -> list Dims -> Z -> H -> option (Dims * H))
    (serialize_ : addr -> wbuf -> option wbuf)
    (initialize_ : addr -> H -> option (Z * H))
    (terminate_ : addr -> H -> option H)
    (supportsFormat_ : addr -> DataType -> PluginFormat -> option bool)
    (configure_ : addr -> list Dims -> Z -> list Dims -> Z -> DataType
                  -> PluginFormat -> Z -> H -> option H)
    (workspaceSize_ : addr -> Z -> option Z)
    (enqueue_ : addr -> Z -> list Z -> list Z -> Z -> Z -> H -> option (Z * H)) :
  PluginAdapter.getNbOutputs nbOutputs_ self = nbOutputs_ (PluginAdapter._plugin self)
  /\ PluginAdapter.getOutputDimensions outputDimensions_ self
     = outputDimensions_ (PluginAdapter._plugin self)
  /\ PluginAdapter.serialize serialize_ self = serialize_ (PluginAdapter._plugin self)
  /\ PluginAdapter.getSerializationSize serializationSize_ self
     = serializationSize_ (PluginAdapter._plugin self)
  /\ PluginAdapter.initialize initialize_ self = initialize_ (PluginAdapter._plugin self)
  /\ PluginAdapter.terminate terminate_ self = terminate_ (PluginAdapter._plugin self)
  /\ PluginAdapter.supportsFormat supportsFormat_ self
     = supportsFormat_ (PluginAdapter._plugin self)
  /\ PluginAdapter.configureWithFormat configure_ self
     = configure_ (PluginAdapter._plugin self)
  /\ PluginAdapter.getWorkspaceSize workspaceSize_ self
     = workspaceSize_ (PluginAdapter._plugin self)
  /\ PluginAdapter.enqueue enqueue_ self = enqueue_ (PluginAdapter._plugin self).
Proof. repeat split. Qed.

(** A [TypeSerializingPlugin] inherits the adapter's overriders for the
    operations it does not override itself: a virtual call on the wrapper
    reaches the wrapped plugin. *)
Lemma wrapper_inherits_forwarding h a w s n
    (index : Z) (inputDims : list Dims) (nbInputs : Z)
    (type : DataType) (format : PluginFormat) (maxBatchSize : Z) :
  heap_ok h -> h !! a = Some (TypeSerializing w) ->
  h !! TypeSerializingPlugin._plugin w = Some (Foreign s) ->
  getNbOutputs (S (S n)) h a = Some (stub_nbOutputs s)
  /\ supportsFormat (S (S n)) h a type format = Some (stub_supportsFormat s type format)
  /\ getWorkspaceSize (S (S n)) h a maxBatchSize = Some (stub_workspaceSize s maxBatchSize)
  /\ initialize (S (S n)) a h
     = Some (stub_initialize s,
             <[TypeSerializingPlugin._plugin w := Foreign (record_call CallInitialize s)]> h)
  /\ terminate (S (S n)) a h
     = Some (<[TypeSerializingPlugin._plugin w := Foreign (record_call CallTerminate s)]> h).
Proof.
  intros Hok Ha Hp.
  destruct (heap_ok_wrapped _ _ _ Hok Ha) as (_ & _ & _ & Hadapter).
  cbn [getNbOutputs supportsFormat getWorkspaceSize initialize terminate].
  rewrite Ha.
  unfold PluginAdapter.getNbOutputs, PluginAdapter.supportsFormat,
    PluginAdapter.getWorkspaceSize, PluginAdapter.initialize, PluginAdapter.terminate.
  rewrite Hadapter, Hp. repeat split.
Qed.

(** C4. Each of the ten operations of a [PluginAdapter] whose wrapped object
    is a test double returns exactly what the double answers for the very
    arguments the adapter was called with, and the double records exactly
    that call: [getNbOutputs], [getOutputDimensions], [serialize],
    [getSerializationSize], [initialize], [terminate], [supportsFormat],
    [configureWithFormat], [getWorkspaceSize] and [enqueue]. *)
Theorem PluginAdapter_forwards_verbatim
    (h : heap) (self : PluginAdapter.t) (s : Stub) (magic : cstring) (n : nat)
    (index : Z) (inputDims outputDims : list Dims) (nbInputs nbOutputs : Z)
    (type : DataType) (format : PluginFormat) (maxBatchSize batchSize : Z)
    (inputs outputs : list Z) (workspace stream : Z) (buffer : wbuf) :
  let p := PluginAdapter._plugin self in
  let received c := <[p := Foreign (record_call c s)]> h in
  h !! p = Some (Foreign s) ->
  PluginAdapter.getNbOutputs (getNbOutputs (S n) h) self = Some (stub_nbOutputs s)
  /\ PluginAdapter.getOutputDimensions (getOutputDimensions (S n)) self
       index inputDims nbInputs h
     = Some (stub_outputDimensions s index inputDims nbInputs,
             received (CallGetOutputDimensions index inputDims nbInputs))
  /\ PluginAdapter.serialize (serialize magic (S n) h) self buffer
     = poke (stub_image s) buffer
  /\ PluginAdapter.getSerializationSize (getSerializationSize magic (S n) h) self
     = Some (stub_serializationSize s)
  /\ PluginAdapter.initialize (initialize (S n)) self h
     = Some (stub_initialize s, received CallInitialize)
  /\ PluginAdapter.terminate (terminate (S n)) self h
     = Some (received CallTerminate)
  /\ PluginAdapter.supportsFormat (supportsFormat (S n) h) self type format
     = Some (stub_supportsFormat s type format)
  /\ PluginAdapter.configureWithFormat (configureWithFormat (S n)) self
       inputDims nbInputs outputDims nbOutputs type format maxBatchSize h
     = Some (received (CallConfigureWithFormat inputDims nbInputs outputDims nbOutputs
                         type format maxBatchSize))
  /\ PluginAdapter.getWorkspaceSize (getWorkspaceSize (S n) h) self maxBatchSize
     = Some (stub_workspaceSize s maxBatchSize)
  /\ PluginAdapter.enqueue (enqueue (S n)) self
       batchSize inputs outputs workspace stream h
     = Some (stub_enqueue s batchSize inputs outputs workspace stream,
             received (CallEnqueue batchSize inputs outputs workspace stream)).
Proof.
  intros p received Hp.
  unfold PluginAdapter.getNbOutputs, PluginAdapter.getOutputDimensions,
    PluginAdapter.serialize, PluginAdapter.getSerializationSize,
    PluginAdapter.initialize, PluginAdapter.terminate,
    PluginAdapter.supportsFormat, PluginAdapter.configureWithFormat,
    PluginAdapter.getWorkspaceSize, PluginAdapter.enqueue.
  cbn [getNbOutputs getOutputDimensions serialize getSerializationSize initialize
       terminate supportsFormat configureWithFormat getWorkspaceSize enqueue].
  fold p. rewrite Hp. repeat split.
Qed.

Lemma PluginAdapter_forwards_verbatim_witness :
  let self := PluginAdapter.make unconfigured 1%positive true in
  PluginAdapter.getNbOutputs (getNbOutputs 1 example_heap) self = Some 1
  /\ PluginAdapter.getSerializationSize
       (getSerializationSize example_magic 1 example_heap) self = Some 97
  /\ PluginAdapter.supportsFormat (supportsFormat 1 example_heap) self kFLOAT kLINEAR
     = Some true
  /\ PluginAdapter.enqueue (enqueue 1) self 8 [4096] [8192] 0 0 example_heap
     = Some (0, <[1%positive := Foreign (record_call (CallEnqueue 8 [4096] [8192] 0 0) MyOp)]>
                  example_heap).
Proof.
  intros self.
  assert (example_heap !! PluginAdapter._plugin self = Some (Foreign MyOp)) as Hp
    by reflexivity.
  destruct (PluginAdapter_forwards_verbatim example_heap self MyOp example_magic 0
              0 [] [] 0 0 kFLOAT kLINEAR 8 8 [4096] [8192] 0 0
              {| mem := []; pos := 0 |} Hp)
    as (Hnb & _ & _ & Hsz & _ & _ & Hfmt & _ & _ & Henq).
  split; [exact Hnb|]. split; [exact Hsz|]. split; [exact Hfmt|]. exact Henq.
Defined.

(** ** Ownership and destruction *)

(** [destroy()] on a live plugin of a store as the constructors leave it
    returns; it deletes the receiver and the chain of plugins owned under it,
    each of them once, and nothing else. *)
Lemma destroy_chain s : heap_ok (objs s) -> forall n p,
  (depth p <= n)%nat -> is_Some (objs s !! p) ->
  exists s' l,
    destroy n p s = Some s'
    /\ destroyed s' = destroyed s ++ l
    /\ NoDup l
    /\ p ∈ l
    /\ (forall x, x ∈ l -> (x <= p)%positive)
    /\ (forall w, objs s !! p = Some (TypeSerializing w) ->
                  TypeSerializingPlugin._plugin w ∈ l)
    /\ (forall x, x ∈ l -> objs s' !! x = None)
    /\ (forall x, x ∉ l -> objs s' !! x = objs s !! x).
Proof.
  intros Hok. induction n as [|n IH]; intros p Hn Hp; [pose proof (depth_pos p); lia|].
  cbn [destroy]. destruct (objs s !! p) as [[f|w]|] eqn:Hlook.
  - exists (deallocate p s), [p]. cbn [deallocate objs destroyed].
    split; [reflexivity|]. split; [reflexivity|].
    split; [apply NoDup_singleton|]. split; [apply list_elem_of_singleton; reflexivity|].
    split; [intros x Hx; apply list_elem_of_singleton in Hx as ->; lia|].
    split; [intros w Hw; discriminate Hw|]. split.
    + intros x Hx. apply list_elem_of_singleton in Hx as ->. apply lookup_delete_eq.
    + intros x Hx. apply lookup_delete_ne. intros ->. apply Hx.
      apply list_elem_of_singleton. reflexivity.
  - destruct (heap_ok_wrapped _ _ _ Hok Hlook) as (Hlt & Hq & Howned & _).
    unfold TypeSerializingPlugin_dtor, UniqueOwnable_dtor. rewrite Howned.
    destruct (IH (TypeSerializingPlugin._plugin w)) as
      (s1 & l1 & Hrun & Hlog & Hnodup & Hin & Hle & _ & Hgone & Hkept);
      [lia | exact Hq |].
    rewrite Hrun. cbn [mbind option_bind].
    assert (p ∉ l1) as Hfresh.
    { intros Hp1. apply Hle in Hp1. unfold depth in Hlt.
      apply Pos2Nat.inj_lt in Hlt. lia. }
    exists (deallocate p s1), (l1 ++ [p]). cbn [deallocate objs destroyed].
    split; [reflexivity|]. split; [rewrite Hlog; now rewrite app_assoc|].
    split.
    { apply NoDup_app. split; [exact Hnodup|]. split; [|apply NoDup_singleton].
      intros x Hx Hxp. apply list_elem_of_singleton in Hxp as ->. contradiction. }
    split; [apply elem_of_app; right; apply list_elem_of_singleton; reflexivity|].
    split.
    { intros x Hx. apply elem_of_app in Hx as [Hx|Hx].
      - apply Hle in Hx. unfold depth in Hlt. apply Pos2Nat.inj_lt in Hlt. lia.
      - apply list_elem_of_singleton in Hx as ->. lia. }
    split; [intros w' [= <-]; apply elem_of_app; now left|]. split.
    + intros x Hx. destruct (decide (x = p)) as [->|Hne]; [apply lookup_delete_eq|].
      rewrite lookup_delete_ne by congruence. apply Hgone.
      apply elem_of_app in Hx as [Hx|Hx]; [exact Hx|].
      apply list_elem_of_singleton in Hx. contradiction.
    + intros x Hx. rewrite lookup_delete_ne.
      * apply Hkept. intros Hx1. apply Hx. apply elem_of_app. now left.
      * intros ->. apply Hx. apply elem_of_app. right.
        apply list_elem_of_singleton. reflexivity.
  - destruct Hp as [? Hp]. discriminate Hp.
Qed.

Lemma count_occ_NoDup_elem (l : list positive) (x : positive) :
  NoDup l -> x ∈ l -> count_occ Pos.eq_dec l x = 1%nat.
Proof.
  induction 1 as [|y l Hy _ IH]; intros Hx.
  - apply elem_of_nil in Hx. contradiction.
  - cbn [count_occ]. destruct (Pos.eq_dec y x) as [->|Hne].
    + f_equal. apply count_occ_not_In. now rewrite <- list_elem_of_In.
    + apply IH. apply elem_of_cons in Hx as [->|Hx]; [contradiction | exact Hx].
Qed.

(** C5. [destroy()] on a wrapper returns; afterwards the wrapper is gone, the
    wrapped plugin is gone, and the wrapped plugin has been destroyed exactly
    once more than before the call (and so has the wrapper). *)
Theorem TypeSerializingPlugin_destroy_once (s : store) (a : addr)
    (w : TypeSerializingPlugin.t) :
  heap_ok (objs s) -> objs s !! a = Some (TypeSerializing w) ->
  exists s',
    call_destroy a s = Some s'
    /\ objs s' !! a = None
    /\ objs s' !! TypeSerializingPlugin._plugin w = None
    /\ count_occ Pos.eq_dec (destroyed s') (TypeSerializingPlugin._plugin w)
       = S (count_occ Pos.eq_dec (destroyed s) (TypeSerializingPlugin._plugin w))
    /\ count_occ Pos.eq_dec (destroyed s') a
       = S (count_occ Pos.eq_dec (destroyed s) a).
Proof.
  intros Hok Ha.
  destruct (destroy_chain s Hok (depth a) a) as
    (s' & l & Hrun & Hlog & Hnodup & Hin & _ & Hwrapped & Hgone & _);
    [lia | eauto |].
  specialize (Hwrapped w Ha).
  exists s'. split; [exact Hrun|]. split; [now apply Hgone|].
  split; [now apply Hgone|].
  rewrite Hlog, !count_occ_app.
  rewrite (count_occ_NoDup_elem l _ Hnodup Hwrapped).
  rewrite (count_occ_NoDup_elem l a Hnodup Hin). lia.
Qed.

Lemma TypeSerializingPlugin_destroy_once_witness :
  exists s',
    call_destroy 2%positive {| objs := example_heap; destroyed := [] |} = Some s'
    /\ objs s' !! 2%positive = None
    /\ objs s' !! 1%positive = None
    /\ count_occ Pos.eq_dec (destroyed s') 1%positive = 1%nat
    /\ count_occ Pos.eq_dec (destroyed s') 2%positive = 1%nat.
Proof.
  apply (TypeSerializingPlugin_destroy_once
           {| objs := example_heap; destroyed := [] |} 2%positive
           (TypeSerializingPlugin.make unconfigured 1%positive) example_heap_ok).
  reflexivity.
Defined.


(** * Further properties *)

(** ** Wrappers of wrappers *)

Lemma unwrap_bound h : heap_ok h -> forall n m p,
  (depth p <= n)%nat -> (depth p <= m)%nat -> unwrap n h p = unwrap m h p.
Proof.
  intros Hok. induction n as [|n IH]; intros m p Hn Hm; [pose proof (depth_pos p); lia|].
  destruct m as [|m]; [pose proof (depth_pos p); lia|].
  cbn [unwrap].
  destruct (h !! p) as [[s|w]|] eqn:Hp; [reflexivity| |reflexivity].
  destruct (heap_ok_wrapped _ _ _ Hok Hp) as (? & _ & _ & _).
  rewrite (IH m) by lia. reflexivity.
Qed.

Lemma call_unwrap_foreign h p s :
  h !! p = Some (Foreign s) -> call_unwrap h p = Some (O, s).
Proof.
  intros Hp. pose proof (depth_pos p). unfold call_unwrap.
  destruct (depth p) as [|n]; [lia|]. cbn [unwrap]. now rewrite Hp.
Qed.

Lemma call_unwrap_wrapper h a w :
  heap_ok h -> h !! a = Some (TypeSerializing w) ->
  call_unwrap h a
  = '(k, s) ← call_unwrap h (TypeSerializingPlugin._plugin w); Some (S k, s).
Proof.
  intros Hok Ha. destruct (heap_ok_wrapped _ _ _ Hok Ha) as (Hlt & _ & _ & _).
  unfold call_unwrap at 1. destruct (depth a) as [|n] eqn:Hd; [lia|].
  cbn [unwrap]. rewrite Ha. unfold call_unwrap.
  rewrite (unwrap_bound h Hok n (depth (TypeSerializingPlugin._plugin w))) by lia.
  reflexivity.
Qed.

Lemma call_unwrap_is_Some h : heap_ok h -> forall p,
  is_Some (h !! p) -> is_Some (call_unwrap h p).
Proof.
  intros Hok.
  assert (forall n p, (depth p <= n)%nat -> is_Some (h !! p) ->
                      is_Some (call_unwrap h p)) as Hind.
  { induction n as [|n IH]; intros p Hn Hp; [pose proof (depth_pos p); lia|].
    destruct (h !! p) as [[s|w]|] eqn:Hlook.
    - rewrite (call_unwrap_foreign h p s Hlook). eauto.
    - destruct (heap_ok_wrapped _ _ _ Hok Hlook) as (Hlt & Hq & _ & _).
      rewrite (call_unwrap_wrapper h p w Hok Hlook).
      destruct (IH (TypeSerializingPlugin._plugin w)) as [[k s] Hks];
        [lia | exact Hq |].
      rewrite Hks. cbn [mbind option_bind]. eauto.
    - destruct Hp as [? Hp]. discriminate Hp. }
  intros p. apply (Hind (depth p)). lia.
Qed.

(** The three calls on a plugin under [k] wrappers, in terms of the plugin at
    the bottom. *)
Lemma chain_calls magic h : heap_ok h -> forall p k s,
  call_unwrap h p = Some (k, s) ->
  call_getPluginType h p = Some (stub_type s)
  /\ writes (call_serialize magic h p)
            (concat (replicate k (header magic (stub_type s))) ++ stub_image s)
  /\ (is_size_t (stub_serializationSize s) ->
      call_getSerializationSize magic h p
      = Some (to_size_t (Z.of_nat k * (sizeof_literal magic + 1 + strlen (stub_type s))
                         + stub_serializationSize s))).
Proof.
  intros Hok.
  assert (forall n p, (depth p <= n)%nat -> forall k s,
    call_unwrap h p = Some (k, s) ->
    call_getPluginType h p = Some (stub_type s)
    /\ writes (call_serialize magic h p)
              (concat (replicate k (header magic (stub_type s))) ++ stub_image s)
    /\ (is_size_t (stub_serializationSize s) ->
        call_getSerializationSize magic h p
        = Some (to_size_t (Z.of_nat k * (sizeof_literal magic + 1 + strlen (stub_type s))
                           + stub_serializationSize s)))) as Hind.
  { induction n as [|n IH]; intros p Hn k s Hks; [pose proof (depth_pos p); lia|].
    destruct (h !! p) as [[f|w]|] eqn:Hlook.
    - rewrite (call_unwrap_foreign h p f Hlook) in Hks. injection Hks as <- <-.
      destruct (call_foreign h p f magic Hlook) as (Hty & Hsz & Himg).
      split; [exact Hty|]. split; [exact Himg|].
      intros Hrange. rewrite Hsz. f_equal. symmetry.
      cbn [Z.of_nat]. rewrite Z.mul_0_l, Z.add_0_l. now apply to_size_t_id.
    - destruct (heap_ok_wrapped _ _ _ Hok Hlook) as (Hlt & _ & _ & _).
      rewrite (call_unwrap_wrapper h p w Hok Hlook) in Hks.
      destruct (call_unwrap h (TypeSerializingPlugin._plugin w)) as [[k' s']|] eqn:Hin;
        cbn [mbind option_bind] in Hks; [|discriminate].
      injection Hks as <- <-.
      destruct (IH (TypeSerializingPlugin._plugin w) ltac:(lia) k' s' Hin)
        as (Hty & Himg & Hsz).
      split; [|split].
      + now rewrite (call_getPluginType_wrapper h p w Hok Hlook).
      + cbn [replicate concat]. rewrite <- app_assoc. unfold header at 1.
        rewrite <- app_assoc.
        apply (wrapper_writes magic h p w); assumption.
      + intros Hrange.
        rewrite (call_getSerializationSize_wrapper magic h p w Hok Hlook).
        unfold TypeSerializingPlugin.getSerializationSize.
        rewrite Hty, (Hsz Hrange). cbn [mbind option_bind]. f_equal.
        unfold to_size_t. rewrite Z.add_mod_idemp_r by (unfold size_t_modulus; lia).
        f_equal. lia.
    - unfold call_unwrap in Hks. pose proof (depth_pos p).
      destruct (depth p); [lia|]. cbn [unwrap] in Hks. rewrite Hlook in Hks.
      discriminate. }
  intros p. apply (Hind (depth p)). lia.
Qed.

Lemma nested_heap_ok : heap_ok nested_heap.
Proof.
  intros a w Ha. unfold nested_heap, construct in Ha.
  apply lookup_insert_Some in Ha as [[<- Hw] | [_ Ha]].
  - injection Hw as <-. exists unconfigured, 2%positive.
    split; [reflexivity|]. split; [reflexivity|]. eexists. reflexivity.
  - destruct (example_heap_ok a w Ha) as (base & p & -> & Hlt & [o Ho]).
    exists base, p. split; [reflexivity|]. split; [exact Hlt|].
    exists o. unfold nested_heap, construct.
    rewrite lookup_insert_ne; [exact Ho|].
    intros <-. discriminate Ho.
Qed.

(** X1. Through any number of nested wrappers, [getPluginType()] returns, and
    returns the type name of the plugin at the bottom of the chain. *)
Theorem wrapper_chain_getPluginType h p :
  heap_ok h -> is_Some (h !! p) ->
  exists k s, call_unwrap h p = Some (k, s)
              /\ call_getPluginType h p = Some (stub_type s).
Proof.
  intros Hok Hp. destruct (call_unwrap_is_Some h Hok p Hp) as [[k s] Hks].
  exists k, s. split; [exact Hks|].
  now destruct (chain_calls [] h Hok p k s Hks) as (Hty & _).
Qed.

Lemma wrapper_chain_getPluginType_witness :
  exists k s, call_unwrap nested_heap 3%positive = Some (k, s)
              /\ call_getPluginType nested_heap 3%positive = Some (stub_type s).
Proof.
  apply (wrapper_chain_getPluginType nested_heap 3%positive nested_heap_ok).
  eexists. reflexivity.
Defined.

(** X2. [serialize] of a plugin under [k] nested wrappers writes [k] copies
    of the same header (marker with its NUL, then the type name of the plugin
    at the bottom with its NUL), followed by the bytes of that plugin. *)
Theorem wrapper_chain_serialize magic h p k s :
  heap_ok h -> call_unwrap h p = Some (k, s) ->
  writes (call_serialize magic h p)
         (concat (replicate k (header magic (stub_type s))) ++ stub_image s).
Proof.
  intros Hok Hks. now destruct (chain_calls magic h Hok p k s Hks) as (_ & Himg & _).
Qed.

Lemma wrapper_chain_serialize_witness :
  writes (call_serialize example_magic nested_heap 3%positive)
         (header example_magic MyOp_type ++ header example_magic MyOp_type
          ++ stub_image MyOp).
Proof.
  intros buffer.
  rewrite (wrapper_chain_serialize example_magic nested_heap 3%positive 2 MyOp
             nested_heap_ok eq_refl buffer).
  cbn [replicate concat]. now rewrite app_nil_r, <- app_assoc.
Defined.

(** X3. [getSerializationSize] of a plugin under [k] nested wrappers is [k]
    times [sizeof(MAGIC) + 1 + strlen(type name)] plus the size the plugin at
    the bottom reports, in [size_t] arithmetic: the reductions modulo 2^64
    made at each level amount to one. *)
Theorem wrapper_chain_getSerializationSize magic h p k s :
  heap_ok h -> call_unwrap h p = Some (k, s) ->
  is_size_t (stub_serializationSize s) ->
  call_getSerializationSize magic h p
  = Some (to_size_t (Z.of_nat k * (sizeof_literal magic + 1 + strlen (stub_type s))
                     + stub_serializationSize s)).
Proof.
  intros Hok Hks Hrange.
  destruct (chain_calls magic h Hok p k s Hks) as (_ & _ & Hsz). now apply Hsz.
Qed.

Lemma wrapper_chain_getSerializationSize_witness :
  call_getSerializationSize example_magic nested_heap 3%positive = Some 125.
Proof.
  rewrite (wrapper_chain_getSerializationSize example_magic nested_heap 3%positive
             2 MyOp nested_heap_ok eq_refl).
  - reflexivity.
  - unfold is_size_t, size_t_modulus. simpl. lia.
Defined.

(** ** Room in the buffer *)

Lemma length_c_str_le s : (length (c_str s) <= length s)%nat.
Proof.
  induction s as [|b s IH]; simpl; [lia|].
  destruct (is_nul b); simpl; lia.
Qed.

Lemma length_c_str_lt s : ~ no_nul s -> (length (c_str s) < length s)%nat.
Proof.
  induction s as [|b s IH]; intros Hs.
  - exfalso. apply Hs. constructor.
  - simpl. destruct (is_nul b) eqn:Hb; simpl; [lia|].
    apply is_nul_false in Hb.
    assert (~ no_nul s) as Hs' by (intros H; apply Hs; now constructor).
    specialize (IH Hs'). lia.
Qed.

Lemma length_concat_replicate {A} k (l : list A) :
  length (concat (replicate k l)) = (k * length l)%nat.
Proof.
  induction k as [|k IH]; [reflexivity|].
  cbn [replicate concat]. rewrite length_app, IH. lia.
Qed.

Lemma length_header magic ty :
  Z.of_nat (length (header magic ty))
  = sizeof_literal (c_str magic) + 1 + strlen ty.
Proof.
  unfold header, sizeof_literal, strlen. rewrite !length_app. cbn [length]. lia.
Qed.

(** A successful copy changes nothing outside its window. *)
Lemma poke_frame bs w w' :
  poke bs w = Some w' ->
  length (mem w') = length (mem w)
  /\ pos w' = (pos w + length bs)%nat
  /\ take (pos w) (mem w') = take (pos w) (mem w)
  /\ (forall n, (pos w + length bs <= n)%nat -> drop n (mem w') = drop n (mem w)).
Proof.
  unfold poke. destruct (decide _) as [Hle|]; [|discriminate].
  intros [= <-]; cbn [mem pos].
  split; [rewrite !length_app, length_take, length_drop; lia|].
  split; [reflexivity|]. split.
  - rewrite take_app_le by (rewrite length_take; lia).
    rewrite take_take. f_equal. lia.
  - intros n Hn. rewrite app_assoc.
    rewrite drop_app_ge by (rewrite length_app, length_take; lia).
    rewrite drop_drop, length_app, length_take. f_equal. lia.
Qed.

(** The bytes written under [k] wrappers against the size reported, when the
    plugin at the bottom reports the length of its own image. *)
Lemma chain_image_length magic k s :
  stub_serializationSize s = Z.of_nat (length (stub_image s)) ->
  Z.of_nat (length (concat (replicate k (header magic (stub_type s))) ++ stub_image s))
  = Z.of_nat k * (sizeof_literal (c_str magic) + 1 + strlen (stub_type s))
    + stub_serializationSize s.
Proof.
  intros Hleaf. rewrite length_app, length_concat_replicate, Hleaf.
  rewrite <- length_header. lia.
Qed.

Lemma headers_nonneg magic ty (k : nat) :
  0 <= Z.of_nat k * (sizeof_literal magic + 1 + strlen ty).
Proof. unfold sizeof_literal, strlen. nia. Qed.

(** X4. A buffer with room for [getSerializationSize()] bytes always
    suffices, whatever the marker is: when the plugin at the bottom of a chain
    of wrappers reports the length of its own image and the total fits
    [size_t], [serialize] into such a buffer succeeds, the cursor ends inside
    the reported window, and no byte before the cursor or after the window
    changes. *)
Theorem serialize_fits_reported_size magic h p k s :
  heap_ok h -> call_unwrap h p = Some (k, s) ->
  stub_serializationSize s = Z.of_nat (length (stub_image s)) ->
  Z.of_nat k * (sizeof_literal magic + 1 + strlen (stub_type s))
    + stub_serializationSize s < size_t_modulus ->
  exists size : nat,
    call_getSerializationSize magic h p = Some (Z.of_nat size)
    /\ forall buffer, (pos buffer + size <= length (mem buffer))%nat ->
       exists buffer',
         call_serialize magic h p buffer = Some buffer'
         /\ length (mem buffer') = length (mem buffer)
         /\ (pos buffer <= pos buffer' <= pos buffer + size)%nat
         /\ take (pos buffer) (mem buffer') = take (pos buffer) (mem buffer)
         /\ drop (pos buffer + size) (mem buffer')
            = drop (pos buffer + size) (mem buffer).
Proof.
  intros Hok Hks Hleaf Hfit.
  destruct (chain_calls magic h Hok p k s Hks) as (_ & Himg & Hsz).
  pose proof (chain_image_length magic k s Hleaf) as Hlen.
  pose proof (length_c_str_le magic) as Hmagic.
  pose proof (headers_nonneg magic (stub_type s) k) as Hhdr.
  assert (is_size_t (stub_serializationSize s)) as Hrange
    by (unfold is_size_t; rewrite Hleaf in *; lia).
  set (image := concat (replicate k (header magic (stub_type s))) ++ stub_image s) in *.
  set (total := Z.of_nat k * (sizeof_literal magic + 1 + strlen (stub_type s))
                + stub_serializationSize s) in *.
  assert (Z.of_nat (length image) <= total) as Hle.
  { rewrite Hlen. unfold total, sizeof_literal. nia. }
  assert (0 <= total) as Hpos by lia.
  exists (Z.to_nat total). split.
  - rewrite (Hsz Hrange).
    rewrite to_size_t_id by (unfold is_size_t; lia).
    now rewrite Z2Nat.id.
  - intros buffer Hroom. rewrite (Himg buffer).
    rewrite poke_Some by lia. eexists. split; [reflexivity|].
    destruct (poke_frame image buffer _ (poke_Some image buffer ltac:(lia)))
      as (Hmem & Hcur & Hbefore & Hafter).
    split; [exact Hmem|]. split; [rewrite Hcur; lia|].
    split; [exact Hbefore|]. apply Hafter. lia.
Qed.

Lemma serialize_fits_reported_size_witness :
  exists size : nat,
    call_getSerializationSize split_magic nested_heap 3%positive = Some (Z.of_nat size)
    /\ forall buffer, (pos buffer + size <= length (mem buffer))%nat ->
       exists buffer',
         call_serialize split_magic nested_heap 3%positive buffer = Some buffer'
         /\ length (mem buffer') = length (mem buffer)
         /\ (pos buffer <= pos buffer' <= pos buffer + size)%nat
         /\ take (pos buffer) (mem buffer') = take (pos buffer) (mem buffer)
         /\ drop (pos buffer + size) (mem buffer')
            = drop (pos buffer + size) (mem buffer).
Proof.
  apply (serialize_fits_reported_size split_magic nested_heap 3%positive 2 MyOp
           nested_heap_ok).
  - reflexivity.
  - reflexivity.
  - vm_compute. reflexivity.
Defined.

(** X5. With a marker free of embedded NUL, the fit is exact: under the same
    conditions [serialize] advances the cursor by exactly
    [getSerializationSize()] bytes when the buffer has that much room, and
    runs past the end of the buffer (undefined behaviour) when it has less. *)
Theorem serialize_exact_or_overrun magic h p k s :
  no_nul magic ->
  heap_ok h -> call_unwrap h p = Some (k, s) ->
  stub_serializationSize s = Z.of_nat (length (stub_image s)) ->
  Z.of_nat k * (sizeof_literal magic + 1 + strlen (stub_type s))
    + stub_serializationSize s < size_t_modulus ->
  exists size : nat,
    call_getSerializationSize magic h p = Some (Z.of_nat size)
    /\ forall buffer,
         ((pos buffer + size <= length (mem buffer))%nat ->
          exists buffer', call_serialize magic h p buffer = Some buffer'
                          /\ pos buffer' = (pos buffer + size)%nat)
         /\ ((length (mem buffer) < pos buffer + size)%nat ->
             call_serialize magic h p buffer = None).
Proof.
  intros Hmagic Hok Hks Hleaf Hfit.
  destruct (chain_calls magic h Hok p k s Hks) as (_ & Himg & Hsz).
  pose proof (chain_image_length magic k s Hleaf) as Hlen.
  rewrite (c_str_no_nul magic Hmagic) in Hlen.
  pose proof (headers_nonneg magic (stub_type s) k) as Hhdr.
  assert (is_size_t (stub_serializationSize s)) as Hrange
    by (unfold is_size_t; rewrite Hleaf in *; lia).
  set (image := concat (replicate k (header magic (stub_type s))) ++ stub_image s) in *.
  exists (length image). split.
  - rewrite (Hsz Hrange).
    rewrite <- Hlen. rewrite to_size_t_id by (unfold is_size_t; lia). reflexivity.
  - intros buffer. rewrite (Himg buffer). split; intros Hroom.
    + rewrite poke_Some by lia. eexists. split; reflexivity.
    + apply poke_None. lia.
Qed.

Lemma serialize_exact_or_overrun_witness :
  exists size : nat,
    call_getSerializationSize example_magic example_heap 2%positive
      = Some (Z.of_nat size)
    /\ forall buffer,
         ((pos buffer + size <= length (mem buffer))%nat ->
          exists buffer',
            call_serialize example_magic example_heap 2%positive buffer = Some buffer'
            /\ pos buffer' = (pos buffer + size)%nat)
         /\ ((length (mem buffer) < pos buffer + size)%nat ->
             call_serialize example_magic example_heap 2%positive buffer = None).
Proof.
  apply (serialize_exact_or_overrun example_magic example_heap 2%positive 1 MyOp
           example_magic_no_nul example_heap_ok).
  - reflexivity.
  - reflexivity.
  - vm_compute. reflexivity.
Defined.

(** X6. The hypothesis on the marker is needed: were the marker literal to
    contain a NUL, every wrapper would report more bytes than it writes
    ([sizeof] counts the whole literal, the copy stops at the NUL). *)
Theorem embedded_nul_marker_overreports magic h p k s :
  ~ no_nul magic ->
  heap_ok h -> call_unwrap h p = Some (S k, s) ->
  stub_serializationSize s = Z.of_nat (length (stub_image s)) ->
  Z.of_nat (S k) * (sizeof_literal magic + 1 + strlen (stub_type s))
    + stub_serializationSize s < size_t_modulus ->
  exists image size,
    writes (call_serialize magic h p) image
    /\ call_getSerializationSize magic h p = Some size
    /\ Z.of_nat (length image) < size.
Proof.
  intros Hmagic Hok Hks Hleaf Hfit.
  destruct (chain_calls magic h Hok p (S k) s Hks) as (_ & Himg & Hsz).
  pose proof (chain_image_length magic (S k) s Hleaf) as Hlen.
  pose proof (length_c_str_lt magic Hmagic) as Hlt.
  pose proof (headers_nonneg magic (stub_type s) (S k)) as Hhdr.
  assert (is_size_t (stub_serializationSize s)) as Hrange
    by (unfold is_size_t; rewrite Hleaf in *; lia).
  eexists. eexists. split; [exact Himg|]. split; [exact (Hsz Hrange)|].
  rewrite to_size_t_id by (unfold is_size_t; lia).
  rewrite Hlen. unfold sizeof_literal. nia.
Qed.

Lemma split_magic_has_nul : ~ no_nul split_magic.
Proof.
  intros H. unfold split_magic in H.
  apply Forall_cons_1 in H as [_ H]. apply Forall_cons_1 in H as [_ H].
  apply Forall_cons_1 in H as [H _]. now apply H.
Qed.

Lemma embedded_nul_marker_overreports_witness :
  exists image size,
    writes (call_serialize split_magic example_heap 2%positive) image
    /\ call_getSerializationSize split_magic example_heap 2%positive = Some size
    /\ Z.of_nat (length image) < size.
Proof.
  apply (embedded_nul_marker_overreports split_magic example_heap 2%positive 0 MyOp
           split_magic_has_nul example_heap_ok).
  - reflexivity.
  - reflexivity.
  - vm_compute. reflexivity.
Defined.

(** ** The ownership chain and [destroy] *)

Lemma lookup_delete_all l : forall (h : heap) x,
  delete_all l h !! x = if decide (x ∈ l) then None else h !! x.
Proof.
  unfold delete_all. induction l as [|y l IH]; intros h x; cbn [foldl].
  - rewrite decide_False by apply not_elem_of_nil. reflexivity.
  - rewrite IH. destruct (decide (x ∈ l)) as [Hin|Hout].
    + rewrite decide_True by (apply elem_of_cons; now right). reflexivity.
    + destruct (decide (x = y)) as [->|Hne].
      * rewrite decide_True by (apply elem_of_cons; now left). apply lookup_delete_eq.
      * rewrite decide_False by (rewrite elem_of_cons; tauto).
        apply lookup_delete_ne. congruence.
Qed.

Lemma owned_chain_bound h : heap_ok h -> forall n m p,
  (depth p <= n)%nat -> (depth p <= m)%nat -> owned_chain n h p = owned_chain m h p.
Proof.
  intros Hok. induction n as [|n IH]; intros m p Hn Hm; [pose proof (depth_pos p); lia|].
  destruct m as [|m]; [pose proof (depth_pos p); lia|].
  cbn [owned_chain].
  destruct (h !! p) as [[s|w]|] eqn:Hp; [reflexivity| |reflexivity].
  destruct (heap_ok_wrapped _ _ _ Hok Hp) as (? & _ & -> & _).
  rewrite (IH m) by lia. reflexivity.
Qed.

(** [destroy] deletes the objects of the ownership chain, in the order of the
    chain, and nothing else. *)
Lemma destroy_owned_chain s : heap_ok (objs s) -> forall n p,
  (depth p <= n)%nat -> is_Some (objs s !! p) ->
  exists l,
    owned_chain n (objs s) p = Some l
    /\ destroy n p s = Some {| objs := delete_all l (objs s);
                               destroyed := destroyed s ++ l |}.
Proof.
  intros Hok. induction n as [|n IH]; intros p Hn Hp; [pose proof (depth_pos p); lia|].
  cbn [destroy owned_chain]. destruct (objs s !! p) as [[f|w]|] eqn:Hlook.
  - exists [p]. split; reflexivity.
  - destruct (heap_ok_wrapped _ _ _ Hok Hlook) as (Hlt & Hq & Howned & _).
    unfold TypeSerializingPlugin_dtor, UniqueOwnable_dtor. rewrite Howned.
    destruct (IH (TypeSerializingPlugin._plugin w)) as (l1 & Hchain & Hrun);
      [lia | exact Hq |].
    rewrite Hchain, Hrun. cbn [mbind option_bind].
    exists (l1 ++ [p]). split; [reflexivity|].
    unfold deallocate, delete_all. cbn [objs destroyed].
    rewrite foldl_app, app_assoc. reflexivity.
  - destruct Hp as [? Hp]. discriminate Hp.
Qed.

(** The shape of an ownership chain: it ends with the receiver; below a
    wrapper it is the chain of the wrapped plugin; every member but the
    receiver is wrapped by a member. *)
Lemma owned_chain_facts h : heap_ok h -> forall n p l,
  owned_chain n h p = Some l ->
  p ∈ l
  /\ (forall x, x ∈ l -> (x <= p)%positive)
  /\ (forall x, x ∈ l ->
        x = p \/ exists c w, c ∈ l /\ h !! c = Some (TypeSerializing w)
                             /\ TypeSerializingPlugin._plugin w = x)
  /\ (forall w, h !! p = Some (TypeSerializing w) ->
        TypeSerializingPlugin._plugin w ∈ l
        /\ forall x, x ∈ l ->
             x = p \/ (x <= TypeSerializingPlugin._plugin w)%positive).
Proof.
  intros Hok. induction n as [|n IH]; intros p l Hl; [discriminate|].
  cbn [owned_chain] in Hl. destruct (h !! p) as [[f|w]|] eqn:Hlook; [| |discriminate].
  - injection Hl as <-. split; [apply list_elem_of_singleton; reflexivity|].
    split; [intros x Hx; apply list_elem_of_singleton in Hx as ->; lia|].
    split; [intros x Hx; apply list_elem_of_singleton in Hx; now left|].
    intros w Hw. discriminate Hw.
  - destruct (heap_ok_wrapped _ _ _ Hok Hlook) as (Hlt & Hq & Howned & _).
    unfold depth in Hlt. apply Pos2Nat.inj_lt in Hlt.
    rewrite Howned in Hl.
    destruct (owned_chain n h (TypeSerializingPlugin._plugin w)) as [l1|] eqn:Hin;
      cbn [mbind option_bind] in Hl; [|discriminate].
    injection Hl as <-.
    destruct (IH _ _ Hin) as (Hq1 & Hle1 & Hown1 & _).
    split; [apply elem_of_app; right; apply list_elem_of_singleton; reflexivity|].
    split.
    { intros x Hx. apply elem_of_app in Hx as [Hx|Hx].
      - apply Hle1 in Hx. lia.
      - apply list_elem_of_singleton in Hx as ->. lia. }
    split.
    { intros x Hx. apply elem_of_app in Hx as [Hx|Hx].
      - right. destruct (Hown1 x Hx) as [->|(c & wc & Hc & Hlc & Hwc)].
        + exists p, w. split; [|split; [exact Hlook | reflexivity]].
          apply elem_of_app. right. apply list_elem_of_singleton. reflexivity.
        + exists c, wc. split; [apply elem_of_app; now left|]. now split.
      - left. now apply list_elem_of_singleton in Hx. }
    intros w' [= <-]. split; [apply elem_of_app; now left|].
    intros x Hx. apply elem_of_app in Hx as [Hx|Hx].
    + right. now apply Hle1.
    + left. now apply list_elem_of_singleton in Hx.
Qed.

(** A call through a dangling pointer is undefined, and so is every call on a
    wrapper whose wrapped plugin is gone. *)
Lemma calls_on_dangling magic (s : store) p :
  objs s !! p = None ->
  call_getPluginType (objs s) p = None
  /\ call_getSerializationSize magic (objs s) p = None
  /\ (forall buffer, call_serialize magic (objs s) p buffer = None)
  /\ call_destroy p s = None.
Proof.
  intros Hp. unfold call_getPluginType, call_getSerializationSize, call_serialize,
    call_destroy.
  destruct (depth p) as [|n]; [repeat split|].
  cbn [getPluginType getSerializationSize serialize destroy]. rewrite Hp.
  repeat split.
Qed.

Lemma calls_on_wrapper_of_dangling magic (s : store) a w :
  objs s !! a = Some (TypeSerializing w) ->
  TypeSerializingPlugin._owned_plugin w = Some (TypeSerializingPlugin._plugin w) ->
  objs s !! TypeSerializingPlugin._plugin w = None ->
  call_getPluginType (objs s) a = None
  /\ call_getSerializationSize magic (objs s) a = None
  /\ (forall buffer, call_serialize magic (objs s) a buffer = None)
  /\ call_destroy a s = None.
Proof.
  intros Ha Howned Hq.
  assert (forall n, getPluginType n (objs s) (TypeSerializingPlugin._plugin w) = None)
    as Hty by (intros [|n]; [reflexivity|]; cbn [getPluginType]; now rewrite Hq).
  assert (forall n, destroy n (TypeSerializingPlugin._plugin w) s = None)
    as Hdel by (intros [|n]; [reflexivity|]; cbn [destroy]; now rewrite Hq).
  unfold call_getPluginType, call_getSerializationSize, call_serialize, call_destroy.
  destruct (depth a) as [|n]; [repeat split|].
  cbn [getPluginType getSerializationSize serialize destroy]. rewrite Ha.
  unfold TypeSerializingPlugin.getPluginType, TypeSerializingPlugin.getSerializationSize,
    TypeSerializingPlugin.serialize, TypeSerializingPlugin_dtor, UniqueOwnable_dtor.
  rewrite Howned, Hty, Hdel. repeat split.
Qed.

Lemma shared_heap_ok : heap_ok shared_heap.
Proof.
  intros a w Ha. unfold shared_heap, construct in Ha.
  apply lookup_insert_Some in Ha as [[<- Hw] | [_ Ha]].
  - injection Hw as <-. exists unconfigured, 1%positive.
    split; [reflexivity|]. split; [reflexivity|]. eexists. reflexivity.
  - destruct (example_heap_ok a w Ha) as (base & p & -> & Hlt & [o Ho]).
    exists base, p. split; [reflexivity|]. split; [exact Hlt|].
    exists o. unfold shared_heap, construct.
    rewrite lookup_insert_ne; [exact Ho|].
    intros <-. discriminate Ho.
Qed.

(** X7. [destroy()] removes exactly the ownership chain of the receiver: the
    call returns, the objects of the chain are gone and are logged as
    destroyed in the order of the chain (the wrapped plugin before its
    wrapper), and every other object of the store is as it was. *)
Theorem destroy_removes_exactly_owned_chain (s : store) (a : addr) :
  heap_ok (objs s) -> is_Some (objs s !! a) ->
  exists l s',
    owned_chain (depth a) (objs s) a = Some l
    /\ call_destroy a s = Some s'
    /\ destroyed s' = destroyed s ++ l
    /\ (forall x, x ∈ l -> objs s' !! x = None)
    /\ (forall x, x ∉ l -> objs s' !! x = objs s !! x).
Proof.
  intros Hok Ha.
  destruct (destroy_owned_chain s Hok (depth a) a) as (l & Hchain & Hrun);
    [lia | exact Ha |].
  exists l. eexists. split; [exact Hchain|]. split; [exact Hrun|].
  cbn [objs destroyed]. split; [reflexivity|]. split; intros x Hx.
  - rewrite lookup_delete_all. now rewrite decide_True.
  - rewrite lookup_delete_all. now rewrite decide_False.
Qed.

Lemma destroy_removes_exactly_owned_chain_witness :
  exists l s',
    owned_chain (depth 3%positive) nested_heap 3%positive = Some l
    /\ call_destroy 3%positive {| objs := nested_heap; destroyed := [] |} = Some s'
    /\ destroyed s' = [] ++ l
    /\ (forall x, x ∈ l -> objs s' !! x = None)
    /\ (forall x, x ∉ l -> objs s' !! x = nested_heap !! x).
Proof.
  apply (destroy_removes_exactly_owned_chain
           {| objs := nested_heap; destroyed := [] |} 3%positive nested_heap_ok).
  eexists. reflexivity.
Defined.

(** X8. After [destroy()] on a wrapper, the wrapper and the wrapped plugin
    are dangling: a second [destroy()] on either, and [getPluginType],
    [getSerializationSize] or [serialize] on the wrapper, are undefined. *)
Theorem use_after_destroy_undefined magic (s : store) (a : addr)
    (w : TypeSerializingPlugin.t) :
  heap_ok (objs s) -> objs s !! a = Some (TypeSerializing w) ->
  exists s',
    call_destroy a s = Some s'
    /\ call_destroy a s' = None
    /\ call_destroy (TypeSerializingPlugin._plugin w) s' = None
    /\ call_getPluginType (objs s') a = None
    /\ call_getSerializationSize magic (objs s') a = None
    /\ (forall buffer, call_serialize magic (objs s') a buffer = None).
Proof.
  intros Hok Ha.
  destruct (destroy_chain s Hok (depth a) a) as
    (s' & l & Hrun & _ & _ & Hin & _ & Hwrapped & Hgone & _);
    [lia | eauto |].
  exists s'. split; [exact Hrun|].
  destruct (calls_on_dangling magic s' a (Hgone a Hin)) as (Hty & Hsz & Himg & Hdel).
  destruct (calls_on_dangling magic s' _ (Hgone _ (Hwrapped w Ha))) as (_ & _ & _ & Hdel').
  repeat split; assumption.
Qed.

Lemma use_after_destroy_undefined_witness :
  exists s',
    call_destroy 2%positive {| objs := example_heap; destroyed := [] |} = Some s'
    /\ call_destroy 2%positive s' = None
    /\ call_destroy 1%positive s' = None
    /\ call_getPluginType (objs s') 2%positive = None
    /\ call_getSerializationSize example_magic (objs s') 2%positive = None
    /\ (forall buffer, call_serialize example_magic (objs s') 2%positive buffer = None).
Proof.
  apply (use_after_destroy_undefined example_magic
           {| objs := example_heap; destroyed := [] |} 2%positive
           (TypeSerializingPlugin.make unconfigured 1%positive) example_heap_ok).
  reflexivity.
Defined.

(** X9. The constructor does not check that the plugin is unowned.  When two
    wrappers have been constructed from the same plugin, [destroy()] on one
    of them leaves the other in the store with its wrapped plugin gone:
    [destroy()] on the second (a double delete) and [getPluginType()] on it
    are undefined. *)
Theorem two_owners_double_delete (s : store) (a b : addr)
    (w w' : TypeSerializingPlugin.t) :
  heap_ok (objs s) -> a <> b ->
  objs s !! a = Some (TypeSerializing w) ->
  objs s !! b = Some (TypeSerializing w') ->
  TypeSerializingPlugin._plugin w = TypeSerializingPlugin._plugin w' ->
  exists s',
    call_destroy a s = Some s'
    /\ objs s' !! b = Some (TypeSerializing w')
    /\ call_destroy b s' = None
    /\ call_getPluginType (objs s') b = None.
Proof.
  intros Hok Hab Ha Hb Hsame.
  destruct (destroy_owned_chain s Hok (depth a) a) as (l & Hchain & Hrun);
    [lia | eauto |].
  destruct (owned_chain_facts _ Hok _ _ _ Hchain) as (_ & _ & _ & Hshape).
  destruct (Hshape w Ha) as [Hq Hbelow].
  destruct (heap_ok_wrapped _ _ _ Hok Hb) as (Hlt & _ & Howned & _).
  unfold depth in Hlt. apply Pos2Nat.inj_lt in Hlt.
  assert (b ∉ l) as Hout.
  { intros Hin. destruct (Hbelow b Hin) as [->|Hle]; [now apply Hab|].
    rewrite Hsame in Hle. lia. }
  eexists. split; [exact Hrun|].
  assert (delete_all l (objs s) !! b = Some (TypeSerializing w')) as Hb'
    by (rewrite lookup_delete_all, decide_False by exact Hout; exact Hb).
  assert (delete_all l (objs s) !! TypeSerializingPlugin._plugin w' = None) as Hq'
    by (rewrite lookup_delete_all, decide_True by (now rewrite <- Hsame); reflexivity).
  split; [exact Hb'|].
  destruct (calls_on_wrapper_of_dangling []
              {| objs := delete_all l (objs s); destroyed := destroyed s ++ l |}
              b w' Hb' Howned Hq') as (Hty & _ & _ & Hdel).
  split; [exact Hdel | exact Hty].
Qed.

Lemma two_owners_double_delete_witness :
  exists s',
    call_destroy 2%positive {| objs := shared_heap; destroyed := [] |} = Some s'
    /\ objs s' !! 3%positive
       = Some (TypeSerializing (TypeSerializingPlugin.make unconfigured 1%positive))
    /\ call_destroy 3%positive s' = None
    /\ call_getPluginType (objs s') 3%positive = None.
Proof.
  apply (two_owners_double_delete {| objs := shared_heap; destroyed := [] |}
           2%positive 3%positive
           (TypeSerializingPlugin.make unconfigured 1%positive)
           (TypeSerializingPlugin.make unconfigured 1%positive) shared_heap_ok).
  - discriminate.
  - reflexivity.
  - reflexivity.
  - reflexivity.
Defined.

(** X10. The wrapper does not notice when the plugin it owns is destroyed
    behind its back: after [destroy()] on the wrapped plugin itself the
    wrapper is still in the store, and [getPluginType],
    [getSerializationSize], [serialize] and [destroy] on it are undefined. *)
Theorem wrapped_destroyed_behind_wrapper magic (s : store) (a : addr)
    (w : TypeSerializingPlugin.t) :
  heap_ok (objs s) -> objs s !! a = Some (TypeSerializing w) ->
  exists s1,
    call_destroy (TypeSerializingPlugin._plugin w) s = Some s1
    /\ objs s1 !! a = Some (TypeSerializing w)
    /\ call_getPluginType (objs s1) a = None
    /\ call_getSerializationSize magic (objs s1) a = None
    /\ (forall buffer, call_serialize magic (objs s1) a buffer = None)
    /\ call_destroy a s1 = None.
Proof.
  intros Hok Ha.
  destruct (heap_ok_wrapped _ _ _ Hok Ha) as (Hlt & Hq & Howned & _).
  unfold depth in Hlt. apply Pos2Nat.inj_lt in Hlt.
  destruct (destroy_owned_chain s Hok (depth (TypeSerializingPlugin._plugin w))
              (TypeSerializingPlugin._plugin w)) as (l & Hchain & Hrun);
    [lia | exact Hq |].
  destruct (owned_chain_facts _ Hok _ _ _ Hchain) as (Hin & Hle & _ & _).
  assert (a ∉ l) as Hout by (intros Hal; apply Hle in Hal; lia).
  eexists. split; [exact Hrun|].
  assert (delete_all l (objs s) !! a = Some (TypeSerializing w)) as Ha'
    by (rewrite lookup_delete_all, decide_False by exact Hout; exact Ha).
  assert (delete_all l (objs s) !! TypeSerializingPlugin._plugin w = None) as Hq'
    by (rewrite lookup_delete_all, decide_True by exact Hin; reflexivity).
  split; [exact Ha'|].
  exact (calls_on_wrapper_of_dangling magic
           {| objs := delete_all l (objs s); destroyed := destroyed s ++ l |}
           a w Ha' Howned Hq').
Qed.

Lemma wrapped_destroyed_behind_wrapper_witness :
  exists s1,
    call_destroy 1%positive {| objs := example_heap; destroyed := [] |} = Some s1
    /\ objs s1 !! 2%positive
       = Some (TypeSerializing (TypeSerializingPlugin.make unconfigured 1%positive))
    /\ call_getPluginType (objs s1) 2%positive = None
    /\ call_getSerializationSize example_magic (objs s1) 2%positive = None
    /\ (forall buffer, call_serialize example_magic (objs s1) 2%positive buffer = None)
    /\ call_destroy 2%positive s1 = None.
Proof.
  apply (wrapped_destroyed_behind_wrapper example_magic
           {| objs := example_heap; destroyed := [] |} 2%positive
           (TypeSerializingPlugin.make unconfigured 1%positive) example_heap_ok).
  reflexivity.
Defined.

(** ** Exclusive ownership as an invariant of the store *)

Lemma construct_heap_ok this base plugin (h : heap) :
  heap_ok h -> h !! this = None -> (plugin < this)%positive ->
  is_Some (h !! plugin) ->
  heap_ok (construct this base plugin h).
Proof.
  intros Hok Hfresh Hlt Hp a w Ha. unfold construct in *.
  assert (forall q, is_Some (h !! q) ->
            is_Some (<[this := TypeSerializing (TypeSerializingPlugin.make base plugin)]> h
                     !! q)) as Hkeep.
  { intros q [o Ho]. exists o. rewrite lookup_insert_ne; [exact Ho|].
    intros <-. rewrite Hfresh in Ho. discriminate. }
  apply lookup_insert_Some in Ha as [[<- Hw] | [_ Ha]].
  - injection Hw as <-. exists base, plugin.
    split; [reflexivity|]. split; [exact Hlt|]. now apply Hkeep.
  - destruct (Hok a w Ha) as (base' & p & -> & Hlt' & Hlive).
    exists base', p. split; [reflexivity|]. split; [exact Hlt'|]. now apply Hkeep.
Qed.

(** X11. Exclusive ownership is kept by [destroy()] on a plugin that no
    wrapper owns: in a store where every wrapper's plugin exists and no
    plugin has two wrappers, the call returns and leaves a store with the
    same two properties (no wrapper is left with a dangling plugin). *)
Theorem destroy_keeps_exclusive_ownership (s : store) (a : addr) :
  heap_ok (objs s) -> exclusive (objs s) -> unowned (objs s) a ->
  is_Some (objs s !! a) ->
  exists s',
    call_destroy a s = Some s' /\ heap_ok (objs s') /\ exclusive (objs s').
Proof.
  intros Hok Hexcl Htop Ha.
  destruct (destroy_owned_chain s Hok (depth a) a) as (l & Hchain & Hrun);
    [lia | exact Ha |].
  destruct (owned_chain_facts _ Hok _ _ _ Hchain) as (_ & _ & Hown & _).
  eexists. split; [exact Hrun|]. cbn [objs].
  assert (forall b o, delete_all l (objs s) !! b = Some o ->
                      (b ∉ l) /\ objs s !! b = Some o) as Hback.
  { intros b o Hb. rewrite lookup_delete_all in Hb.
    destruct (decide (b ∈ l)); [discriminate|]. now split. }
  split.
  - intros b w Hb. destruct (Hback _ _ Hb) as [Hout Hb0].
    destruct (Hok b w Hb0) as (base & q & -> & Hlt & Hq).
    exists base, q. split; [reflexivity|]. split; [exact Hlt|].
    rewrite lookup_delete_all. rewrite decide_False; [exact Hq|].
    intros Hin. destruct (Hown q Hin) as [->|(c & wc & Hc & Hlc & Hwc)].
    + exact (Htop b _ Hb0 eq_refl).
    + apply Hout.
      rewrite (Hexcl b c _ wc Hb0 Hlc) by (symmetry; exact Hwc). exact Hc.
  - intros b b' w w' Hb Hb' Hsame.
    destruct (Hback _ _ Hb) as [_ Hb0]. destruct (Hback _ _ Hb') as [_ Hb0'].
    exact (Hexcl b b' w w' Hb0 Hb0' Hsame).
Qed.

Lemma example_heap_exclusive : exclusive example_heap.
Proof.
  intros b b' w w' Hb Hb' _. unfold example_heap in *.
  apply lookup_insert_Some in Hb as [[<- _] | [_ Hb]].
  - apply lookup_insert_Some in Hb' as [[<- _] | [_ Hb']]; [reflexivity|].
    apply lookup_insert_Some in Hb' as [[_ Hw] | [_ Hb']]; [discriminate|].
    rewrite lookup_empty in Hb'. discriminate.
  - apply lookup_insert_Some in Hb as [[_ Hw] | [_ Hb]]; [discriminate|].
    rewrite lookup_empty in Hb. discriminate.
Qed.

Lemma example_heap_top : unowned example_heap 2%positive.
Proof.
  intros b w Hb. unfold example_heap in Hb.
  apply lookup_insert_Some in Hb as [[_ Hw] | [_ Hb]].
  - injection Hw as <-. discriminate.
  - apply lookup_insert_Some in Hb as [[_ Hw] | [_ Hb]]; [discriminate|].
    rewrite lookup_empty in Hb. discriminate.
Qed.

Lemma destroy_keeps_exclusive_ownership_witness :
  exists s',
    call_destroy 2%positive {| objs := example_heap; destroyed := [] |} = Some s'
    /\ heap_ok (objs s') /\ exclusive (objs s').
Proof.
  apply (destroy_keeps_exclusive_ownership
           {| objs := example_heap; destroyed := [] |} 2%positive
           example_heap_ok example_heap_exclusive example_heap_top).
  eexists. reflexivity.
Defined.

(** X12. Constructing a wrapper from a plugin that exists and that no wrapper
    owns keeps the store well formed and ownership exclusive, and the new
    wrapper is itself unowned. *)
Theorem construct_keeps_exclusive_ownership this base plugin (h : heap) :
  heap_ok h -> exclusive h -> unowned h plugin ->
  h !! this = None -> (plugin < this)%positive -> is_Some (h !! plugin) ->
  heap_ok (construct this base plugin h)
  /\ exclusive (construct this base plugin h)
  /\ unowned (construct this base plugin h) this.
Proof.
  intros Hok Hexcl Hfree Hfresh Hlt Hp.
  split; [now apply construct_heap_ok|]. unfold construct. split.
  - intros b b' w w' Hb Hb' Hsame.
    apply lookup_insert_Some in Hb as [[<- Hw] | [Hne Hb]];
      apply lookup_insert_Some in Hb' as [[<- Hw'] | [Hne' Hb']].
    + reflexivity.
    + injection Hw as <-. exfalso. apply (Hfree b' w' Hb'). now rewrite <- Hsame.
    + injection Hw' as <-. exfalso. apply (Hfree b w Hb). now rewrite Hsame.
    + exact (Hexcl b b' w w' Hb Hb' Hsame).
  - intros b w Hb Hwraps.
    apply lookup_insert_Some in Hb as [[<- Hw] | [_ Hb]].
    + injection Hw as <-. cbn in Hwraps. lia.
    + destruct (Hok b w Hb) as (base' & q & -> & _ & [o Ho]).
      cbn in Hwraps. subst q. rewrite Hfresh in Ho. discriminate.
Qed.

Lemma construct_keeps_exclusive_ownership_witness :
  heap_ok nested_heap /\ exclusive nested_heap /\ unowned nested_heap 3%positive.
Proof.
  apply (construct_keeps_exclusive_ownership 3%positive unconfigured 2%positive
           example_heap example_heap_ok example_heap_exclusive example_heap_top).
  - reflexivity.
  - reflexivity.
  - eexists. reflexivity.
Defined.

Lemma owned_chain_frame this o (h : heap) : heap_ok h -> h !! this = None ->
  forall n p, is_Some (h !! p) ->
  owned_chain n (<[this := o]> h) p = owned_chain n h p.
Proof.
  intros Hok Hfresh. induction n as [|n IH]; intros p Hp; [reflexivity|].
  cbn [owned_chain].
  assert (this <> p) as Hne by (intros <-; rewrite Hfresh in Hp; now destruct Hp).
  rewrite lookup_insert_ne by exact Hne.
  destruct (h !! p) as [[f|w]|] eqn:Hlook; [reflexivity| |reflexivity].
  destruct (heap_ok_wrapped _ _ _ Hok Hlook) as (_ & Hq & -> & _).
  now rewrite IH.
Qed.

(** X13. Wrapping and destroying compose: [destroy()] on a freshly
    constructed wrapper leaves exactly the store that [destroy()] on the
    plugin itself would have left, with one more entry in the destruction
    log, the wrapper, after those of the plugin. *)
Theorem construct_then_destroy this base plugin (h : heap) (log : list addr) :
  heap_ok h -> h !! this = None -> (plugin < this)%positive ->
  is_Some (h !! plugin) ->
  exists s1,
    call_destroy plugin {| objs := h; destroyed := log |} = Some s1
    /\ call_destroy this {| objs := construct this base plugin h; destroyed := log |}
       = Some {| objs := objs s1; destroyed := destroyed s1 ++ [this] |}.
Proof.
  intros Hok Hfresh Hlt Hp.
  pose proof (construct_heap_ok this base plugin h Hok Hfresh Hlt Hp) as Hok'.
  destruct (destroy_owned_chain {| objs := h; destroyed := log |} Hok
              (depth plugin) plugin) as (l1 & Hchain1 & Hrun1); [lia | exact Hp |].
  destruct (destroy_owned_chain
              {| objs := construct this base plugin h; destroyed := log |} Hok'
              (depth this) this) as (l & Hchain & Hrun);
    [lia | unfold construct; cbn [objs]; rewrite lookup_insert_eq; eauto |].
  cbn [objs destroyed] in *.
  assert (l = l1 ++ [this]) as ->.
  { assert (depth plugin < depth this)%nat as Hd
      by (unfold depth; now apply Pos2Nat.inj_lt).
    destruct (depth this) as [|n] eqn:Hn; [lia|].
    cbn [owned_chain] in Hchain. unfold construct in Hchain at 1.
    rewrite lookup_insert_eq in Hchain. cbn in Hchain.
    unfold construct in Hchain.
    rewrite (owned_chain_frame this _ h Hok Hfresh n plugin Hp) in Hchain.
    rewrite (owned_chain_bound h Hok n (depth plugin)) in Hchain by lia.
    rewrite Hchain1 in Hchain. cbn in Hchain. now injection Hchain as <-. }
  eexists. split; [exact Hrun1|]. unfold call_destroy. rewrite Hrun.
  cbn [objs destroyed].
  f_equal. f_equal; [|now rewrite app_assoc].
  apply map_eq. intros x. rewrite !lookup_delete_all. unfold construct.
  destruct (decide (x = this)) as [->|Hne].
  - rewrite decide_True by (apply elem_of_app; right; apply list_elem_of_singleton;
                            reflexivity).
    destruct (decide (this ∈ l1)); [reflexivity | now rewrite Hfresh].
  - rewrite lookup_insert_ne by congruence.
    destruct (decide (x ∈ l1)) as [Hin|Hout].
    + rewrite decide_True by (apply elem_of_app; now left). reflexivity.
    + rewrite decide_False; [reflexivity|].
      intros Hin. apply elem_of_app in Hin as [Hin|Hin]; [contradiction|].
      now apply list_elem_of_singleton in Hin.
Qed.

Lemma construct_then_destroy_witness :
  exists s1,
    call_destroy 2%positive {| objs := example_heap; destroyed := [] |} = Some s1
    /\ call_destroy 3%positive {| objs := nested_heap; destroyed := [] |}
       = Some {| objs := objs s1; destroyed := destroyed s1 ++ [3%positive] |}.
Proof.
  apply (construct_then_destroy 3%positive unconfigured 2%positive example_heap []
           example_heap_ok).
  - reflexivity.
  - reflexivity.
  - eexists. reflexivity.
Defined.
